(** * Verification of [databricks/sqlalchemy/_parse.py]

    The module parses the textual output of [DESCRIBE TABLE EXTENDED] and
    error messages received from DBR.  It is "mostly just wrappers around
    regexes", so the development has three layers:

    - Python strings and the [in] operator on them;
    - a backtracking matcher for the fragment of [re] the module uses, with
      [re.findall] on top of it;
    - the functions of the module, written over these.

    A Python [str] is modelled as a [string]; each [ascii] stands for one
    code point in the range 0..255. *)

From Stdlib Require Import Ascii String List Bool Arith Lia.
From stdpp Require Import base option gmap strings.

Import ListNotations.

#[local] Arguments String.append !_ _ : simpl nomatch.

(** ** Strings *)

Module Str.

Fixpoint all_chars (p : ascii -> bool) (s : string) : bool :=
  match s with
  | EmptyString => true
  | String c s' => p c && all_chars p s'
  end.

(** [sub in s] for two Python strings: [sub] occurs in [s] at some offset. *)
Fixpoint contains (sub s : string) : bool :=
  String.prefix sub s ||
  match s with
  | EmptyString => false
  | String _ s' => contains sub s'
  end.

(** [s.split(sep)] for a separator of one character. The result is never
    empty: a string without separator is returned whole. *)
Fixpoint split (sep : ascii) (s : string) : list string :=
  match s with
  | EmptyString => [EmptyString]
  | String c s' =>
      if Ascii.eqb c sep then EmptyString :: split sep s'
      else match split sep s' with
           | p :: ps => String c p :: ps
           | [] => [String c EmptyString]
           end
  end.

(** [s.replace(old, new)] for [old] of one character. *)
Fixpoint replace (old : ascii) (new : string) (s : string) : string :=
  match s with
  | EmptyString => EmptyString
  | String c s' =>
      if Ascii.eqb c old then new +:+ replace old new s'
      else String c (replace old new s')
  end.

(** The non-empty suffixes of [s], longest first. *)
Fixpoint suffixes (s : string) : list string :=
  match s with
  | EmptyString => []
  | String _ s' => s :: suffixes s'
  end.

(** Truth value of a string: only the empty string is falsy. *)
Definition truthy (s : string) : bool :=
  match s with
  | EmptyString => false
  | String _ _ => true
  end.

(** The declarative reading of [contains]. *)
Definition Substring (sub s : string) : Prop :=
  exists pre post, s = pre +:+ sub +:+ post.

End Str.

Notation "sub 'in_str' s" := (Str.contains sub s) (at level 70, no associativity).

(** ** Regular expressions

    The fragment of Python's [re] used by the module: literal text, a
    character class under [*], [+] or [*?], one capturing group, and
    concatenation. *)

Module Re.

Definition code (c : ascii) : nat := nat_of_ascii c.

Definition between (lo hi : nat) (c : ascii) : bool :=
  (lo <=? code c) && (code c <=? hi).

(** [[A-Za-z0-9_]] *)
Definition word_char (c : ascii) : bool :=
  between 65 90 c || between 97 122 c || between 48 57 c || Ascii.eqb c "_"%char.

(** [\s] on a [str] pattern: the code points below 256 for which
    [str.isspace] holds. *)
Definition space (c : ascii) : bool :=
  between 9 13 c || between 28 32 c || (code c =? 133) || (code c =? 160).

(** [[`A-Za-z0-9_,\s]] *)
Definition group_char (c : ascii) : bool :=
  Ascii.eqb c "`"%char || word_char c || Ascii.eqb c ","%char || space c.

(** [.] without [re.DOTALL]: anything but a line feed. *)
Definition dot (c : ascii) : bool := negb (code c =? 10).

Inductive regex : Type :=
| Lit (l : string)               (* the text [l] *)
| Star (p : ascii -> bool)       (* [p*], greedy *)
| Plus (p : ascii -> bool)       (* [p+], greedy *)
| LazyStar (p : ascii -> bool)   (* [p*?] *)
| Group (r : regex)              (* [(r)] *)
| Cat (r1 r2 : regex).

(** One way of matching a pattern at the start of a string: the text
    consumed, the text of group 1 if the pattern has one, and what is left. *)
Record outcome : Type := Outcome {
  matched : string;
  captured : option string;
  rest : string;
}.

Definition extend (c : ascii) (o : outcome) : outcome :=
  Outcome (String c (matched o)) (captured o) (rest o).

(** The ways [p*] can match at the start of [s], longest first. *)
Fixpoint greedy (p : ascii -> bool) (s : string) : list outcome :=
  match s with
  | String c s' =>
      if p c then map (extend c) (greedy p s') ++ [Outcome EmptyString None s]
      else [Outcome EmptyString None s]
  | EmptyString => [Outcome EmptyString None s]
  end.

(** The ways [p*?] can match at the start of [s], shortest first. *)
Fixpoint lazy (p : ascii -> bool) (s : string) : list outcome :=
  Outcome EmptyString None s ::
  match s with
  | String c s' => if p c then map (extend c) (lazy p s') else []
  | EmptyString => []
  end.

Fixpoint drop (n : nat) (s : string) : string :=
  match n, s with
  | S n', String _ s' => drop n' s'
  | _, _ => s
  end.

Definition first_some {A} (a b : option A) : option A :=
  match a with
  | Some _ => a
  | None => b
  end.

(** All the ways [r] matches at the start of [s], in the order in which a
    backtracking matcher tries them. *)
Fixpoint run (r : regex) (s : string) : list outcome :=
  match r with
  | Lit l =>
      if String.prefix l s then [Outcome l None (drop (String.length l) s)]
      else []
  | Star p => greedy p s
  | Plus p =>
      match s with
      | String c s' => if p c then map (extend c) (greedy p s') else []
      | EmptyString => []
      end
  | LazyStar p => lazy p s
  | Group r' =>
      map (fun o => Outcome (matched o) (Some (matched o)) (rest o)) (run r' s)
  | Cat r1 r2 =>
      flat_map
        (fun o1 =>
           map (fun o2 => Outcome (matched o1 +:+ matched o2)
                                  (first_some (captured o1) (captured o2))
                                  (rest o2))
               (run r2 (rest o1)))
        (run r1 s)
  end.

(** What [findall] reports for a match: group 1 if the pattern has a group,
    the whole match otherwise. *)
Definition item (o : outcome) : string :=
  match captured o with
  | Some g => g
  | None => matched o
  end.

Definition nonempty (o : outcome) : bool := Str.truthy (matched o).

(** [pattern.findall(s)]. The scan is at a position of the subject; [skip]
    counts the characters up to the end of the last match, where the search
    resumes. A match is searched at each position in turn; after an empty
    match the same position is tried once more for a non-empty one. *)
Fixpoint findall_from (r : regex) (skip : nat) (s : string) : list string :=
  match skip with
  | S k =>
      match s with
      | EmptyString => []
      | String _ s' => findall_from r k s'
      end
  | O =>
      let resume k :=
        match s with
        | EmptyString => []
        | String _ s' => findall_from r k s'
        end in
      match run r s with
      | [] => resume 0
      | o :: _ =>
          item o ::
          match String.length (matched o) with
          | S k => resume k
          | O =>
              match filter nonempty (run r s) with
              | [] => resume 0
              | o' :: _ => item o' :: resume (pred (String.length (matched o')))
              end
          end
      end
  end.

Definition findall (r : regex) (s : string) : list string := findall_from r 0 s.

(** What it means for a string to match a pattern, and what group 1 holds. *)
Inductive Matches : regex -> string -> option string -> Prop :=
| M_lit l : Matches (Lit l) l None
| M_star p w : Str.all_chars p w = true -> Matches (Star p) w None
| M_plus p c w :
    Str.all_chars p (String c w) = true -> Matches (Plus p) (String c w) None
| M_lazy p w : Str.all_chars p w = true -> Matches (LazyStar p) w None
| M_group r w g : Matches r w g -> Matches (Group r) w (Some w)
| M_cat r1 r2 w1 w2 g1 g2 :
    Matches r1 w1 g1 -> Matches r2 w2 g2 ->
    Matches (Cat r1 r2) (w1 +:+ w2) (first_some g1 g2).

(** The pattern matches somewhere in the subject. *)
Definition Occurs (r : regex) (s : string) : Prop :=
  exists pre w g post, s = pre +:+ w +:+ post /\ Matches r w g.

End Re.

Infix "⋅" := Re.Cat (at level 60, right associativity).


(** ** Python values and exceptions *)

Inductive exn : Type :=
| TypeError
| IndexError
| KeyError.

Inductive result (A : Type) : Type :=
| Ok (a : A)
| Raise (e : exn).
Arguments Ok {A} a.
Arguments Raise {A} e.

#[global] Instance result_ret : MRet result := fun A a => Ok a.
#[global] Instance result_bind : MBind result := fun A B k r =>
  match r with
  | Ok a => k a
  | Raise e => Raise e
  end.

(** The values stored in the dictionaries built by the module. *)
Inductive pyval : Type :=
| VNone
| VStr (s : string)
| VList (l : list string).

Abbreviation dict := (gmap string pyval).

(** [l[i]] *)
Definition list_item {A} (l : list A) (i : nat) : result A :=
  match l !! i with
  | Some a => Ok a
  | None => Raise IndexError
  end.

(** [d[key]], where [d] is a dictionary or [None]. *)
Definition dict_item (d : option dict) (key : string) : result pyval :=
  match d with
  | None => Raise TypeError
  | Some m =>
      match m !! key with
      | Some v => Ok v
      | None => Raise KeyError
      end
  end.

(** [{**d, **e}]: the entries of [e] replace those of [d]. *)
Definition unpack (d e : dict) : dict := e ∪ d.

(** Truth value of an [Optional[str]]. *)
Definition truthy (s : option string) : bool :=
  match s with
  | None => false
  | Some s' => Str.truthy s'
  end.

(** ** [_match_table_not_found_string] *)

Definition DBR_LTE_12_NOT_FOUND_STRING : string := "Table or view not found".
Definition DBR_GT_12_NOT_FOUND_STRING : string := "TABLE_OR_VIEW_NOT_FOUND".

(** [any] over a list of booleans. *)
Definition any (bs : list bool) : bool := existsb (fun b => b) bs.

Definition _match_table_not_found_string (message : string) : bool :=
  any [ DBR_LTE_12_NOT_FOUND_STRING in_str message;
        DBR_GT_12_NOT_FOUND_STRING in_str message ].

(** ** The extractors *)

(** [r"`([A-Za-z0-9_]+)`"] *)
Definition identifier_pattern : Re.regex :=
  Re.Lit "`" ⋅ Re.Group (Re.Plus Re.word_char) ⋅ Re.Lit "`".

Definition extract_identifiers_from_string (input_str : string) : list string :=
  let pattern := identifier_pattern in
  let matches := Re.findall pattern input_str in
  map (fun i => i) matches.

(** [r"\([`A-Za-z0-9_,\s]*\)"] *)
Definition identifier_group_pattern : Re.regex :=
  Re.Lit "(" ⋅ Re.Star Re.group_char ⋅ Re.Lit ")".

Definition extract_identifier_groups_from_string (input_str : string)
  : list string :=
  let pattern := identifier_group_pattern in
  let matches := Re.findall pattern input_str in
  map (fun i => i) matches.

(** [r"REFERENCES\s+(.*?)\s*\("] *)
Definition references_pattern : Re.regex :=
  Re.Lit "REFERENCES" ⋅ Re.Plus Re.space ⋅ Re.Group (Re.LazyStar Re.dot)
  ⋅ Re.Star Re.space ⋅ Re.Lit "(".

Definition strip_backticks (input : string) : string :=
  Str.replace "`" "" input.

Definition extract_three_level_identifier_from_constraint_string
    (input_str : string) : result (option dict) :=
  let pat := references_pattern in
  let matches := Re.findall pat input_str in
  match matches with
  | [] => Ok None
  | first_match :: _ =>
      let parts := Str.split "." first_match in
      p0 ← list_item parts 0;
      p1 ← list_item parts 1;
      p2 ← list_item parts 2;
      Ok (Some {[ "catalog" := VStr (strip_backticks p0);
                  "schema" := VStr (strip_backticks p1);
                  "table" := VStr (strip_backticks p2) ]})
  end.

(** ** Foreign keys *)

Definition _parse_fk_from_constraint_string (constraint_str : string)
  : result dict :=
  referred_table_dict ←
    extract_three_level_identifier_from_constraint_string constraint_str;
  referred_table ← dict_item referred_table_dict "table";
  referred_schema ← dict_item referred_table_dict "schema";
  let _extracted := extract_identifier_groups_from_string constraint_str in
  constrained_columns_str ← list_item _extracted 0;
  referred_columns_str ← list_item _extracted 1;
  let constrained_columns :=
    extract_identifiers_from_string constrained_columns_str in
  let referred_columns :=
    extract_identifiers_from_string referred_columns_str in
  Ok {[ "constrained_columns" := VList constrained_columns;
        "referred_table" := referred_table;
        "referred_columns" := VList referred_columns;
        "referred_schema" := referred_schema ]}.

Definition build_fk_dict (fk_name fk_constraint_string : string)
    (schema_name : option string) : result dict :=
  base_fk_dict ← _parse_fk_from_constraint_string fk_constraint_string;
  let schema_override_dict : dict :=
    if negb (truthy schema_name) then {[ "referred_schema" := VNone ]}
    else ∅ in
  let complete_foreign_key_dict :=
    unpack (unpack {[ "name" := VStr fk_name ]} base_fk_dict)
           schema_override_dict in
  Ok complete_foreign_key_dict.

(** ** Primary keys *)

Definition _parse_pk_columns_from_constraint_string (constraint_str : string)
  : list string :=
  let _extracted := extract_identifiers_from_string constraint_str in
  _extracted.

Definition build_pk_dict (pk_name pk_constraint_string : string) : dict :=
  let constrained_columns :=
    _parse_pk_columns_from_constraint_string pk_constraint_string in
  {[ "constrained_columns" := VList constrained_columns;
     "name" := VStr pk_name ]}.

(** ** Rows of [DESCRIBE TABLE EXTENDED] *)

(** A row as [_describe_table_extended_result_to_dict_list] builds it: a
    dictionary with exactly the keys [col_name] and [data_type]. *)
Record row : Type := Row {
  col_name : string;
  data_type : string;
}.

Definition match_dte_rows_by_value (dte_output : list row) (match_ : string)
  : list row :=
  foldl
    (fun output_rows row_dict =>
       if match_ in_str data_type row_dict then output_rows ++ [row_dict]
       else output_rows)
    [] dte_output.

Definition get_fk_strings_from_dte_output (dte_output : list row) : list row :=
  let output := match_dte_rows_by_value dte_output "FOREIGN KEY" in
  output.

(** Declared [Optional[List[dict]]]. *)
Definition get_pk_strings_from_dte_output (dte_output : list row)
  : option (list row) :=
  let output := match_dte_rows_by_value dte_output "PRIMARY KEY" in
  Some output.


(** ** Vocabulary of the specification *)

(** An Identifier contains only [[A-Za-z0-9_]]. *)
Definition Identifier (x : string) : Prop :=
  Str.all_chars Re.word_char x = true.

(** The character [c] does not occur in [x]. *)
Definition Without (c : ascii) (x : string) : Prop :=
  Str.all_chars (fun d => negb (Ascii.eqb d c)) x = true.

Definition quoted (x : string) : string := "`" +:+ x +:+ "`".

(** A backtick, one or more of [[A-Za-z0-9_]], a backtick, at the start of
    [s]. *)
Definition TokenAt (x s : string) : Prop :=
  x <> "" /\ Identifier x /\ exists post, s = quoted x +:+ post.

(** The same, anywhere in [s]. *)
Definition Token (x s : string) : Prop :=
  x <> "" /\ Identifier x /\ Str.Substring (quoted x) s.

(** The tokens met when reading [s] from left to right, where reading
    resumes after the closing backtick of each token. *)
Inductive Scan : string -> list string -> Prop :=
| Scan_end : Scan "" []
| Scan_token x post xs :
    TokenAt x (quoted x +:+ post) -> Scan post xs ->
    Scan (quoted x +:+ post) (x :: xs)
| Scan_skip c s xs :
    (forall x, ~ TokenAt x (String c s)) -> Scan s xs ->
    Scan (String c s) xs.

(** The dictionary returned by
    [extract_three_level_identifier_from_constraint_string] when
    [matches[0]] is [first_match]. *)
Definition three_level_of (first_match : string) : result (option dict) :=
  let parts := Str.split "." first_match in
  p0 ← list_item parts 0;
  p1 ← list_item parts 1;
  p2 ← list_item parts 2;
  Ok (Some {[ "catalog" := VStr (strip_backticks p0);
              "schema" := VStr (strip_backticks p1);
              "table" := VStr (strip_backticks p2) ]}).

(** The pattern matches at the start of the subject. *)
Definition MatchesAt (r : Re.regex) (s : string) : Prop :=
  exists w g t, s = w +:+ t /\ Re.Matches r w g.

(** In [pre +:+ t], the pattern matches at no position of [pre]. *)
Definition NoMatchBefore (r : Re.regex) (pre t : string) : Prop :=
  forall u v, pre = u +:+ v -> v <> "" -> ~ MatchesAt r (v +:+ t).

Definition Spaces (ws : string) : Prop := Str.all_chars Re.space ws = true.

(** Neither white space nor an opening parenthesis. *)
Definition name_char (c : ascii) : bool :=
  negb (Re.space c) && negb (Ascii.eqb c "(").

(** [u] does not start with a character of the class [p]. *)
Definition starts_outside (p : ascii -> bool) (u : string) : Prop :=
  match u with
  | EmptyString => True
  | String c _ => p c = false
  end.

(** A three-part name as it is written in a constraint. *)
Definition qualified (a b c : string) : string :=
  quoted a +:+ "." +:+ quoted b +:+ "." +:+ quoted c.

(** ** The cursor of [DESCRIBE TABLE EXTENDED] *)

Section CursorResult.

(** A row of the [CursorResult]: an object with the attributes [col_name]
    and [data_type]. *)
Variable cursor_row : Type.
Variables row_col_name row_data_type : cursor_row -> string.

Definition _describe_table_extended_result_to_dict_list
    (result : list cursor_row) : list row :=
  foldl
    (fun rows_to_return row =>
       let this_row := Row (row_col_name row) (row_data_type row) in
       rows_to_return ++ [this_row])
    [] result.

End CursorResult.

(** ** Constraint text *)

(** Texts [gap] and wrapped texts [wrap x] in turn, and a last text. *)
Fixpoint weave (wrap : string -> string) (items : list (string * string))
    (last : string) : string :=
  match items with
  | [] => last
  | (gap, x) :: items' => gap +:+ wrap x +:+ weave wrap items' last
  end.

Definition grouped (body : string) : string := "(" +:+ body +:+ ")".

(** A non-empty Identifier. *)
Definition Name (x : string) : Prop := x <> "" /\ Identifier x.

Definition WellQuoted (item : string * string) : Prop :=
  Without "`" (fst item) /\ snd item <> "" /\ Identifier (snd item).

Definition WellGrouped (item : string * string) : Prop :=
  Without "(" (fst item) /\ Str.all_chars Re.group_char (snd item) = true.

(** What separates the columns of a list: commas and white space. *)
Definition sep_char (c : ascii) : bool := Ascii.eqb c "," || Re.space c.

Definition Separator (sep : string) : Prop := Str.all_chars sep_char sep = true.

(** [(`a`, `b`, `c`)] *)
Definition column_list (sep : string) (xs : list string) : string :=
  grouped (String.concat sep (map quoted xs)).

(** [FOREIGN KEY (`p`, `q`) REFERENCES `a`.`b`.`c` (`x`, `y`)] *)
Definition fk_constraint (sep : string) (cols : list string) (a b c : string)
    (refs : list string) : string :=
  "FOREIGN KEY " +:+ column_list sep cols +:+ " REFERENCES "
  +:+ qualified a b c +:+ " " +:+ column_list sep refs.

(** The number of occurrences of [c] in [s]. *)
Fixpoint count_char (c : ascii) (s : string) : nat :=
  match s with
  | EmptyString => 0
  | String d s' => (if Ascii.eqb d c then 1 else 0) + count_char c s'
  end.

(** * Properties *)

(** ** Strings *)

Section StrFacts.

Lemma app_nil_r (s : string) : s +:+ "" = s.
Proof. induction s as [|c s IH]; simpl; [reflexivity | now rewrite IH]. Qed.

Lemma app_assoc (a b c : string) : (a +:+ b) +:+ c = a +:+ b +:+ c.
Proof. induction a as [|x a IH]; simpl; [reflexivity | now rewrite IH]. Qed.

Lemma app_length (a b : string) :
  String.length (a +:+ b) = String.length a + String.length b.
Proof. induction a as [|x a IH]; simpl; [reflexivity | now rewrite IH]. Qed.

Lemma app_inv_head (a x y : string) : a +:+ x = a +:+ y -> x = y.
Proof.
  induction a as [|c a IH]; simpl; intros H; [exact H |].
  injection H as H. auto.
Qed.

Lemma app_eq_nil (a b : string) : a +:+ b = "" -> a = "" /\ b = "".
Proof. destruct a; simpl; [auto | discriminate]. Qed.

Lemma prefix_iff (a s : string) :
  String.prefix a s = true <-> exists r, s = a +:+ r.
Proof.
  revert s. induction a as [|c a IH]; intros s; simpl.
  - destruct s; split; eauto.
  - destruct s as [|d s].
    + split; [discriminate | intros [r Hr]; discriminate].
    + simpl. destruct (ascii_dec c d) as [->|Hne].
      * rewrite IH. split; intros [r Hr]; exists r; congruence.
      * split; [discriminate | intros [r Hr]; congruence].
Qed.

Lemma contains_nil (sub : string) :
  (sub in_str "") = String.prefix sub "" || false.
Proof. reflexivity. Qed.

Lemma contains_cons (sub : string) (c : ascii) (s : string) :
  (sub in_str String c s) = String.prefix sub (String c s) || (sub in_str s).
Proof. reflexivity. Qed.

Lemma contains_iff (sub s : string) :
  (sub in_str s) = true <-> Str.Substring sub s.
Proof.
  unfold Str.Substring. induction s as [|c s IH].
  - rewrite contains_nil, orb_false_r, prefix_iff. split.
    + intros [r Hr]. exists "", r. exact Hr.
    + intros (pre & post & H). symmetry in H.
      apply app_eq_nil in H as [-> H]. exists post. now rewrite H.
  - rewrite contains_cons, orb_true_iff, IH, prefix_iff. split.
    + intros [[r Hr] | (pre & post & H)].
      * exists "", r. exact Hr.
      * exists (String c pre), post. simpl. now rewrite H.
    + intros ([|d pre] & post & H); simpl in H.
      * left. eauto.
      * right. injection H as _ H. eauto.
Qed.

Lemma contains_false_iff (sub s : string) :
  (sub in_str s) = false <-> ~ Str.Substring sub s.
Proof.
  rewrite <- contains_iff. destruct (sub in_str s); split; congruence.
Qed.

Lemma all_chars_app (p : ascii -> bool) (a b : string) :
  Str.all_chars p (a +:+ b) = Str.all_chars p a && Str.all_chars p b.
Proof.
  induction a as [|c a IH]; simpl; [reflexivity |].
  now rewrite IH, andb_assoc.
Qed.

End StrFacts.

(** ** Rows *)

Section Rows.

Lemma foldl_append_filter (keep : row -> bool) (rows acc : list row) :
  foldl (fun out r => if keep r then out ++ [r] else out) acc rows
  = acc ++ List.filter keep rows.
Proof.
  revert acc. induction rows as [|r rows IH]; intros acc; simpl.
  - now rewrite List.app_nil_r.
  - rewrite IH. destruct (keep r); [| reflexivity].
    now rewrite <- List.app_assoc.
Qed.

Lemma match_dte_rows_by_value_filter (rows : list row) (m : string) :
  match_dte_rows_by_value rows m
  = List.filter (fun r => m in_str data_type r) rows.
Proof. unfold match_dte_rows_by_value. now rewrite foldl_append_filter. Qed.

End Rows.

(** ** The matcher

    [Re.run] lists exactly the matches of the pattern at the start of the
    subject: every outcome splits the subject into a matching text and the
    rest, and every such split is an outcome. *)

Section Matcher.

Import Re.

Lemma drop_app (a b : string) : drop (String.length a) (a +:+ b) = b.
Proof. induction a as [|c a IH]; simpl; [now destruct b | exact IH]. Qed.

Lemma greedy_In (p : ascii -> bool) (s : string) (o : outcome) :
  In o (greedy p s) <->
  s = matched o +:+ rest o /\ Str.all_chars p (matched o) = true
  /\ captured o = None.
Proof.
  revert o. induction s as [|c s IH]; intros o; simpl.
  - split.
    + intros [<- | []]. auto.
    + destruct o as [m g t]. simpl. intros (H & _ & ->). symmetry in H.
      apply app_eq_nil in H as [-> ->]. now left.
  - destruct (p c) eqn:Hc.
    + rewrite in_app_iff, in_map_iff. simpl. split.
      * intros [(o' & <- & Hin) | [<- | []]]; [| auto].
        apply IH in Hin as (-> & Hm & Hg). simpl. now rewrite Hc.
      * destruct o as [m g t]. simpl. intros (H & Hm & ->).
        destruct m as [|d m]; simpl in *.
        { right. left. now subst t. }
        injection H as <- ->. left. exists (Outcome m None t). split; [easy |].
        apply IH. simpl. rewrite Hc in Hm. auto.
    + split.
      * intros [<- | []]. auto.
      * destruct o as [m g t]. simpl. intros (H & Hm & ->).
        destruct m as [|d m]; simpl in *.
        { left. now subst t. }
        injection H as <- ->. rewrite Hc in Hm. discriminate.
Qed.

Lemma lazy_In (p : ascii -> bool) (s : string) (o : outcome) :
  In o (lazy p s) <->
  s = matched o +:+ rest o /\ Str.all_chars p (matched o) = true
  /\ captured o = None.
Proof.
  revert o. induction s as [|c s IH]; intros o; simpl.
  - split.
    + intros [<- | []]. auto.
    + destruct o as [m g t]. simpl. intros (H & _ & ->). symmetry in H.
      apply app_eq_nil in H as [-> ->]. now left.
  - split.
    + intros [<- | Hin]; [auto |].
      destruct (p c) eqn:Hc; [| destruct Hin].
      apply in_map_iff in Hin as (o' & <- & Hin).
      apply IH in Hin as (-> & Hm & Hg). simpl. now rewrite Hc.
    + destruct o as [m g t]. simpl. intros (H & Hm & ->).
      destruct m as [|d m]; simpl in *.
      { left. now subst t. }
      injection H as <- ->. right.
      apply andb_prop in Hm as [Hc Hm]. rewrite Hc.
      apply in_map_iff. exists (Outcome m None t). split; [easy |].
      apply IH. auto.
Qed.

Lemma run_sound (r : regex) (s : string) (o : outcome) :
  In o (run r s) ->
  s = matched o +:+ rest o /\ Matches r (matched o) (captured o).
Proof.
  revert s o. induction r as [l | p | p | p | r IH | r1 IH1 r2 IH2];
    intros s o; simpl.
  - destruct (String.prefix l s) eqn:Hp; [| intros []].
    intros [<- | []]. apply prefix_iff in Hp as [t ->]. simpl.
    rewrite drop_app. split; [reflexivity | constructor].
  - intros (H & Hm & Hg)%greedy_In. rewrite Hg. split; [exact H |].
    now constructor.
  - destruct s as [|c s]; [intros [] |].
    destruct (p c) eqn:Hc; [| intros []].
    intros ([m g t] & <- & (H & Hm & Hg)%greedy_In)%in_map_iff. simpl in *.
    subst. split; [reflexivity |]. constructor. simpl. now rewrite Hc.
  - intros (H & Hm & Hg)%lazy_In. rewrite Hg. split; [exact H |].
    now constructor.
  - intros (o' & <- & [H Hm]%IH)%in_map_iff. simpl. split; [exact H |].
    econstructor. exact Hm.
  - intros (o1 & [H1 Hm1]%IH1 & (o2 & <- & [H2 Hm2]%IH2)%in_map_iff)%in_flat_map.
    simpl. split.
    + now rewrite app_assoc, <- H2.
    + now constructor.
Qed.

Lemma run_complete (r : regex) (w t : string) (g : option string) :
  Matches r w g -> In (Outcome w g t) (run r (w +:+ t)).
Proof.
  intros Hm. revert t.
  induction Hm as [l | p w Hw | p c w Hw | p w Hw | r w g Hm IH
                  | r1 r2 w1 w2 g1 g2 Hm1 IH1 Hm2 IH2]; intros t; simpl.
  - assert (Hp : String.prefix l (l +:+ t) = true) by (apply prefix_iff; eauto).
    rewrite Hp, drop_app. now left.
  - apply greedy_In. auto.
  - simpl in Hw. apply andb_prop in Hw as [Hc Hw]. rewrite Hc.
    apply in_map_iff. exists (Outcome w None t). split; [reflexivity |].
    apply greedy_In. auto.
  - apply lazy_In. auto.
  - apply in_map_iff. exists (Outcome w g t). split; [reflexivity | apply IH].
  - apply in_flat_map. exists (Outcome w1 g1 (w2 +:+ t)). split.
    + rewrite app_assoc. apply IH1.
    + apply in_map_iff. exists (Outcome w2 g2 t). split; [reflexivity |].
      apply IH2.
Qed.

(** Nothing is listed exactly when the pattern does not match at the start
    of the subject. *)
Lemma run_nil_iff (r : regex) (s : string) :
  run r s = [] <-> ~ MatchesAt r s.
Proof.
  split.
  - intros Hnil (w & g & t & -> & Hm).
    apply (run_complete _ _ t) in Hm. rewrite Hnil in Hm. destruct Hm.
  - intros Hno. destruct (run r s) as [|o os] eqn:Hrun; [reflexivity |].
    exfalso. apply Hno. exists (matched o), (captured o), (rest o).
    apply run_sound. rewrite Hrun. now left.
Qed.

Lemma Matches_lit_inv (l w : string) (g : option string) :
  Matches (Lit l) w g -> w = l /\ g = None.
Proof. inversion 1; auto. Qed.

Lemma Matches_star_inv (p : ascii -> bool) (w : string) (g : option string) :
  Matches (Star p) w g -> Str.all_chars p w = true /\ g = None.
Proof. inversion 1; auto. Qed.

Lemma Matches_plus_inv (p : ascii -> bool) (w : string) (g : option string) :
  Matches (Plus p) w g -> w <> "" /\ Str.all_chars p w = true /\ g = None.
Proof. inversion 1; subst; repeat split; auto; discriminate. Qed.

Lemma Matches_lazy_inv (p : ascii -> bool) (w : string) (g : option string) :
  Matches (LazyStar p) w g -> Str.all_chars p w = true /\ g = None.
Proof. inversion 1; auto. Qed.

Lemma Matches_group_inv (r : regex) (w : string) (g : option string) :
  Matches (Group r) w g -> g = Some w /\ exists g', Matches r w g'.
Proof. inversion 1; subst; eauto. Qed.

Lemma Matches_cat_inv (r1 r2 : regex) (w : string) (g : option string) :
  Matches (Cat r1 r2) w g ->
  exists w1 w2 g1 g2,
    w = w1 +:+ w2 /\ g = first_some g1 g2
    /\ Matches r1 w1 g1 /\ Matches r2 w2 g2.
Proof. inversion 1; subst; eauto 8. Qed.

End Matcher.

(** ** [findall]

    The scan reports the first match at the leftmost position where the
    pattern matches, and resumes where that match ends. *)

Section Findall.

Import Re.

Lemma findall_from_skip (r : regex) (pre t : string) :
  findall_from r (String.length pre) (pre +:+ t) = findall r t.
Proof. induction pre as [|c pre IH]; simpl; [now destruct t | exact IH]. Qed.

Lemma findall_miss (r : regex) (s : string) :
  run r s = [] ->
  findall r s = match s with
                | EmptyString => []
                | String _ s' => findall r s'
                end.
Proof.
  intros Hrun. unfold findall. destruct s; simpl; now rewrite Hrun.
Qed.

Lemma findall_hit (r : regex) (s : string) (o : outcome) (os : list outcome) :
  run r s = o :: os -> matched o <> "" ->
  findall r s = item o :: findall r (rest o).
Proof.
  intros Hrun Hne.
  assert (Hs : s = matched o +:+ rest o).
  { apply (run_sound r). rewrite Hrun. now left. }
  destruct (matched o) as [|c m] eqn:Hm; [congruence |].
  unfold findall at 1. rewrite Hs. simpl in *. rewrite <- Hs, Hrun, Hm. simpl.
  now rewrite findall_from_skip.
Qed.

Lemma Occurs_nil (r : regex) : Occurs r "" <-> MatchesAt r "".
Proof.
  split.
  - intros (pre & w & g & post & H & Hm). symmetry in H.
    apply app_eq_nil in H as [-> H]. exists w, g, post. auto.
  - intros (w & g & t & H & Hm). exists "", w, g, t. auto.
Qed.

Lemma Occurs_cons (r : regex) (c : ascii) (s : string) :
  Occurs r (String c s) <-> MatchesAt r (String c s) \/ Occurs r s.
Proof.
  split.
  - intros ([|d pre] & w & g & post & H & Hm); simpl in H.
    + left. exists w, g, post. auto.
    + right. injection H as _ H. exists pre, w, g, post. auto.
  - intros [(w & g & t & H & Hm) | (pre & w & g & post & H & Hm)].
    + exists "", w, g, t. auto.
    + exists (String c pre), w, g, post. simpl. split; [now rewrite H | auto].
Qed.

(** [findall] finds nothing exactly when the pattern occurs nowhere. *)
Lemma findall_nil_iff (r : regex) (s : string) :
  findall r s = [] <-> ~ Occurs r s.
Proof.
  induction s as [|c s IH].
  - rewrite Occurs_nil, <- run_nil_iff. split.
    + intros H. destruct (run r "") eqn:Hrun; [reflexivity |].
      unfold findall in H. simpl in H. rewrite Hrun in H. discriminate.
    + intros Hrun. now rewrite findall_miss.
  - rewrite Occurs_cons. split.
    + intros H. destruct (run r (String c s)) eqn:Hrun.
      * rewrite findall_miss in H by assumption. apply IH in H.
        apply run_nil_iff in Hrun. tauto.
      * unfold findall in H. simpl in H. rewrite Hrun in H. discriminate.
    + intros H. rewrite findall_miss.
      * apply IH. tauto.
      * apply run_nil_iff. tauto.
Qed.

(** Positions before the leftmost match add nothing. *)
Lemma findall_leftmost (r : regex) (pre t : string) :
  NoMatchBefore r pre t -> findall r (pre +:+ t) = findall r t.
Proof.
  induction pre as [|c pre IH]; intros Hpre; [reflexivity |].
  rewrite findall_miss by (apply run_nil_iff, (Hpre "" (String c pre)); easy).
  simpl. apply IH. intros u v -> Hv. apply (Hpre (String c u) v); easy.
Qed.

Lemma suffixes_In (u v : string) : v <> "" -> In v (Str.suffixes (u +:+ v)).
Proof.
  intros Hv. induction u as [|c u IH]; simpl.
  - destruct v; [congruence | now left].
  - now right.
Qed.

Lemma NoMatchBefore_suffixes (r : regex) (pre t : string) :
  (forall v, In v (Str.suffixes pre) -> run r (v +:+ t) = []) ->
  NoMatchBefore r pre t.
Proof.
  intros H u v -> Hv. apply run_nil_iff, H. now apply suffixes_In.
Qed.

End Findall.

(** ** The identifier pattern *)

Section IdentifierPattern.

Import Re.

Lemma identifier_pattern_Matches (w : string) (g : option string) :
  Matches identifier_pattern w g <->
  exists x, x <> "" /\ Identifier x /\ w = quoted x /\ g = Some x.
Proof.
  unfold identifier_pattern, quoted. split.
  - intros (w1 & w23 & g1 & g23 & -> & -> & H1 & H23)%Matches_cat_inv.
    apply Matches_cat_inv in H23 as (w2 & w3 & g2 & g3 & -> & -> & H2 & H3).
    apply Matches_lit_inv in H1 as [-> ->], H3 as [-> ->].
    apply Matches_group_inv in H2 as [-> [g' H2]].
    apply Matches_plus_inv in H2 as (Hne & Hx & _).
    exists w2. split; [exact Hne |]. split; [exact Hx |].
    split; reflexivity.
  - intros (x & Hne & Hx & -> & ->). destruct x as [|c x]; [congruence |].
    change (Some (String c x))
      with (first_some None (first_some (Some (String c x)) None)).
    apply M_cat; [| apply M_cat]; try apply M_lit.
    apply (M_group _ _ None), M_plus, Hx.
Qed.

Lemma identifier_pattern_at (s : string) :
  MatchesAt identifier_pattern s <-> exists x, TokenAt x s.
Proof.
  unfold MatchesAt, TokenAt. split.
  - intros (w & g & t & -> & (x & Hne & Hx & -> & _)%identifier_pattern_Matches).
    eauto 6.
  - intros (x & Hne & Hx & post & ->). exists (quoted x), (Some x), post.
    split; [reflexivity |]. apply identifier_pattern_Matches. eauto.
Qed.

Lemma identifier_pattern_head (s : string) (o : outcome) (os : list outcome) :
  run identifier_pattern s = o :: os ->
  exists x, TokenAt x s /\ s = quoted x +:+ rest o /\ item o = x
            /\ matched o <> "".
Proof.
  intros Hrun.
  destruct (run_sound identifier_pattern s o) as [Hs Hm].
  { rewrite Hrun. now left. }
  apply identifier_pattern_Matches in Hm as (x & Hne & Hx & Hw & Hg).
  exists x. unfold item. rewrite Hg, Hw in *. repeat split; eauto.
Qed.

Lemma findall_identifier_Scan (n : nat) (s : string) :
  String.length s <= n -> Scan s (findall identifier_pattern s).
Proof.
  revert s. induction n as [|n IH]; intros s Hn.
  - destruct s; [| simpl in Hn; lia]. rewrite findall_miss by reflexivity.
    constructor.
  - destruct (run identifier_pattern s) as [|o os] eqn:Hrun.
    + rewrite findall_miss by assumption. destruct s as [|c s]; constructor.
      * intros x Hx. apply run_nil_iff in Hrun. apply Hrun.
        apply identifier_pattern_at. eauto.
      * apply IH. simpl in Hn. lia.
    + destruct (identifier_pattern_head _ _ _ Hrun) as (x & Hx & Hs & Hi & Hm).
      rewrite (findall_hit _ _ _ _ Hrun Hm), Hi, Hs. constructor.
      * now rewrite <- Hs.
      * apply IH. rewrite Hs in Hn. unfold quoted in Hn.
        rewrite !app_length in Hn. simpl in Hn. lia.
Qed.

Lemma Scan_sound (s : string) (xs : list string) :
  Scan s xs -> forall x, In x xs -> Token x s.
Proof.
  induction 1 as [| y post xs Hy _ IH | c s xs _ _ IH]; intros x Hin.
  - destruct Hin.
  - destruct Hin as [<- | Hin].
    + destruct Hy as (Hne & Hx & _). repeat split; auto. exists "", post.
      reflexivity.
    + destruct (IH x Hin) as (Hne & Hx & pre & post' & ->).
      repeat split; auto. exists (quoted y +:+ pre), post'.
      now rewrite app_assoc.
  - destruct (IH x Hin) as (Hne & Hx & pre & post' & ->).
    repeat split; auto. exists (String c pre), post'. reflexivity.
Qed.

Lemma Token_somewhere (x s : string) :
  Token x s -> exists pre t, s = pre +:+ t /\ TokenAt x t.
Proof.
  intros (Hne & Hx & pre & post & ->). exists pre, (quoted x +:+ post).
  unfold TokenAt. eauto 6.
Qed.

Lemma Scan_nil_iff (s : string) (xs : list string) :
  Scan s xs -> (xs = [] <-> forall x, ~ Token x s).
Proof.
  induction 1 as [| y post xs Hy _ _ | c s xs Hc _ IH].
  - split; [| reflexivity]. intros _ x (Hne & _ & pre & post & H).
    symmetry in H. apply app_eq_nil in H as [_ H].
    unfold quoted in H. rewrite app_assoc in H. discriminate.
  - split; [discriminate |]. intros H. exfalso. apply (H y).
    destruct Hy as (Hne & Hx & _). repeat split; auto. now exists "", post.
  - rewrite IH. split; intros H x Hx.
    + destruct Hx as (Hne & Hi & [|d pre] & post & Hs).
      * apply (Hc x). unfold TokenAt. eauto.
      * injection Hs as _ ->. apply (H x). unfold Token, Str.Substring. eauto 6.
    + apply (H x). destruct Hx as (Hne & Hi & pre & post & ->).
      repeat split; auto. now exists (String c pre), post.
Qed.

End IdentifierPattern.

(** ** [split] and [replace] *)

Section SplitReplace.

Lemma all_chars_impl (p q : ascii -> bool) (s : string) :
  (forall c, p c = true -> q c = true) ->
  Str.all_chars p s = true -> Str.all_chars q s = true.
Proof.
  intros Hpq. induction s as [|c s IH]; simpl; [reflexivity |].
  intros [Hc Hs]%andb_prop. now rewrite (Hpq _ Hc), IH.
Qed.

Lemma word_char_not (c d : ascii) :
  Re.word_char d = false -> Re.word_char c = true -> negb (Ascii.eqb c d) = true.
Proof.
  intros Hd Hc. destruct (Ascii.eqb_spec c d) as [-> |]; [congruence | easy].
Qed.

Lemma Identifier_Without (d : ascii) (x : string) :
  Re.word_char d = false -> Identifier x -> Without d x.
Proof.
  intros Hd. apply all_chars_impl. intros c. now apply word_char_not.
Qed.

Lemma split_not_nil (sep : ascii) (s : string) : Str.split sep s <> [].
Proof.
  induction s as [|c s IH]; simpl; [discriminate |].
  destruct (Ascii.eqb c sep); [discriminate |].
  destruct (Str.split sep s); discriminate.
Qed.

Lemma split_Without (sep : ascii) (s p : string) :
  In p (Str.split sep s) -> Without sep p.
Proof.
  unfold Without. revert p. induction s as [|c s IH]; intros p; simpl.
  - intros [<- | []]. reflexivity.
  - destruct (Ascii.eqb c sep) eqn:Hc.
    + intros [<- | Hin]; [reflexivity | auto].
    + destruct (Str.split sep s) as [|q qs].
      * intros [<- | []]. simpl. now rewrite Hc.
      * intros [<- | Hin]; [| apply IH; now right].
        simpl. rewrite Hc. simpl. apply IH. now left.
Qed.

Lemma split_atom (sep : ascii) (a : string) :
  Without sep a -> Str.split sep a = [a].
Proof.
  unfold Without. induction a as [|c a IH]; simpl; [reflexivity |].
  intros [Hc Ha]%andb_prop. apply negb_true_iff in Hc. rewrite Hc.
  now rewrite IH.
Qed.

Lemma split_app (sep : ascii) (a s : string) :
  Without sep a -> Str.split sep (a +:+ String sep s) = a :: Str.split sep s.
Proof.
  unfold Without. induction a as [|c a IH]; simpl.
  - intros _. now rewrite Ascii.eqb_refl.
  - intros [Hc Ha]%andb_prop. apply negb_true_iff in Hc. rewrite Hc.
    now rewrite IH.
Qed.

Lemma replace_Without (old : ascii) (s : string) :
  Without old (Str.replace old "" s).
Proof.
  unfold Without. induction s as [|c s IH]; simpl; [reflexivity |].
  destruct (Ascii.eqb c old) eqn:Hc; simpl; [exact IH |].
  now rewrite Hc, IH.
Qed.

Lemma replace_keeps_Without (d old : ascii) (s : string) :
  Without d s -> Without d (Str.replace old "" s).
Proof.
  unfold Without. induction s as [|c s IH]; simpl; [reflexivity |].
  intros [Hc Hs]%andb_prop.
  destruct (Ascii.eqb c old); simpl; [auto |]. now rewrite Hc, IH.
Qed.

Lemma replace_id (old : ascii) (s : string) :
  Without old s -> Str.replace old "" s = s.
Proof.
  unfold Without. induction s as [|c s IH]; simpl; [reflexivity |].
  intros [Hc Hs]%andb_prop. apply negb_true_iff in Hc. rewrite Hc.
  now rewrite IH.
Qed.

Lemma strip_backticks_quoted (x : string) :
  Without "`" x -> strip_backticks (quoted x) = x.
Proof.
  intros Hx. unfold strip_backticks, quoted. simpl.
  assert (H : forall a, Without "`" a -> Str.replace "`" "" (a +:+ "`") = a).
  { unfold Without. induction a as [|c a IH]; simpl; [reflexivity |].
    intros [Hc Ha]%andb_prop. apply negb_true_iff in Hc. rewrite Hc.
    now rewrite IH. }
  now apply H.
Qed.

End SplitReplace.

(** ** Reading is deterministic *)

Section ScanUnique.

Lemma app_sep_inj (c : ascii) (x y p p' : string) :
  Without c x -> Without c y ->
  x +:+ String c p = y +:+ String c p' -> x = y /\ p = p'.
Proof.
  unfold Without. revert y. induction x as [|a x IH]; intros [|b y]; simpl.
  - intros _ _ [= ->]. auto.
  - intros _ [Hb _]%andb_prop [= -> _]. rewrite Ascii.eqb_refl in Hb.
    discriminate.
  - intros [Ha _]%andb_prop _ [= -> _]. rewrite Ascii.eqb_refl in Ha.
    discriminate.
  - intros [_ Hx]%andb_prop [_ Hy]%andb_prop [= -> H].
    destruct (IH y Hx Hy H) as [-> ->]. auto.
Qed.

Lemma quoted_app (x post : string) :
  quoted x +:+ post = String "`" (x +:+ String "`" post).
Proof. unfold quoted. simpl. now rewrite app_assoc. Qed.

Lemma quoted_inj (x y post post' : string) :
  Identifier x -> Identifier y ->
  quoted x +:+ post = quoted y +:+ post' -> x = y /\ post = post'.
Proof.
  intros Hx Hy. rewrite !quoted_app. intros [= H].
  apply (app_sep_inj "`"); auto; now apply Identifier_Without.
Qed.

Lemma Scan_functional (s : string) (xs ys : list string) :
  Scan s xs -> Scan s ys -> xs = ys.
Proof.
  intros H. revert ys.
  induction H as [| x post xs Hx _ IH | c s xs Hc _ IH]; intros ys H2.
  - remember "" as t eqn:Ht.
    destruct H2 as [| y post' ys' Hy H2 | c s ys' Hc H2].
    + reflexivity.
    + rewrite quoted_app in Ht. discriminate.
    + discriminate.
  - remember (quoted x +:+ post) as t eqn:Ht.
    destruct H2 as [| y post' ys' Hy H2 | c s ys' Hc H2].
    + rewrite quoted_app in Ht. discriminate.
    + destruct Hx as (_ & Hx & _), Hy as (_ & Hy & _).
      destruct (quoted_inj _ _ _ _ Hy Hx Ht) as [-> ->].
      f_equal. now apply IH.
    + exfalso. apply (Hc x). exact Hx.
  - remember (String c s) as t eqn:Ht.
    destruct H2 as [| y post' ys' Hy H2 | c' s' ys' Hc' H2].
    + discriminate.
    + exfalso. apply (Hc y). exact Hy.
    + injection Ht as -> ->. now apply IH.
Qed.

End ScanUnique.

(** ** The first way of matching

    Which outcome [Re.run] lists first: the greedy classes take all they
    can, the lazy one as little as lets the rest of the pattern match. *)

Section Heads.
Import Re.

Lemma run_lit (l t : string) : run (Lit l) (l +:+ t) = [Outcome l None t].
Proof.
  simpl. assert (H : String.prefix l (l +:+ t) = true).
  { apply prefix_iff. eauto. }
  now rewrite H, drop_app.
Qed.

Lemma greedy_head (p : ascii -> bool) (w u : string) :
  Str.all_chars p w = true -> starts_outside p u ->
  exists l, greedy p (w +:+ u) = Outcome w None u :: l.
Proof.
  intros Hw Hu. induction w as [|c w IH]; simpl in *.
  - destruct u as [|d u]; simpl in *; [eauto |]. rewrite Hu. eauto.
  - apply andb_prop in Hw as [Hc Hw]. rewrite Hc.
    destruct (IH Hw) as [l ->]. simpl. eauto.
Qed.

Lemma plus_head (p : ascii -> bool) (w u : string) :
  w <> "" -> Str.all_chars p w = true -> starts_outside p u ->
  exists l, run (Plus p) (w +:+ u) = Outcome w None u :: l.
Proof.
  intros Hne Hw Hu. destruct w as [|c w]; [congruence |]. simpl in *.
  apply andb_prop in Hw as [Hc Hw]. rewrite Hc.
  destruct (greedy_head p w u Hw Hu) as [l ->]. simpl. eauto.
Qed.

Lemma cat_head (r1 r2 : regex) (s : string) (o1 o2 : outcome)
    (l1 l2 : list outcome) :
  run r1 s = o1 :: l1 -> run r2 (rest o1) = o2 :: l2 ->
  exists l,
    run (Cat r1 r2) s
    = Outcome (matched o1 +:+ matched o2)
              (first_some (captured o1) (captured o2)) (rest o2) :: l.
Proof. intros H1 H2. simpl. rewrite H1. simpl. rewrite H2. simpl. eauto. Qed.

Lemma flat_map_map {A B C} (f : B -> list C) (h : A -> B) (l : list A) :
  flat_map f (map h l) = flat_map (fun a => f (h a)) l.
Proof. induction l as [|a l IH]; simpl; [reflexivity | now rewrite IH]. Qed.

Lemma lazy_first {A} (p : ascii -> bool) (k : string -> string -> list A)
    (body u : string) :
  Str.all_chars p body = true ->
  (forall pre suf, body = pre +:+ suf -> suf <> "" -> k pre (suf +:+ u) = []) ->
  exists l,
    flat_map (fun o => k (matched o) (rest o)) (lazy p (body +:+ u))
    = k body u ++ l.
Proof.
  revert k. induction body as [|c b IH]; intros k Hp Hk.
  - simpl. destruct u; simpl; eauto.
  - simpl in Hp. apply andb_prop in Hp as [Hc Hp].
    change (lazy p (String c b +:+ u))
      with (Outcome "" None (String c (b +:+ u))
            :: if p c then map (extend c) (lazy p (b +:+ u)) else []).
    rewrite Hc. cbn [flat_map matched rest].
    assert (H0 : k "" (String c (b +:+ u)) = []) by now apply (Hk "" (String c b)).
    rewrite H0, flat_map_map.
    destruct (IH (fun pre r => k (String c pre) r) Hp) as [l Hl].
    { intros pre suf -> Hsuf. now apply (Hk (String c pre) suf). }
    exists l. exact Hl.
Qed.

Lemma cat_lazy_head (p : ascii -> bool) (r2 : regex) (body u : string)
    (o2 : outcome) (l2 : list outcome) :
  Str.all_chars p body = true ->
  (forall pre suf, body = pre +:+ suf -> suf <> "" -> run r2 (suf +:+ u) = []) ->
  run r2 u = o2 :: l2 ->
  exists l,
    run (Cat (Group (LazyStar p)) r2) (body +:+ u)
    = Outcome (body +:+ matched o2) (Some body) (rest o2) :: l.
Proof.
  intros Hp Hno H2. cbn [run]. rewrite flat_map_map. cbn [matched captured rest].
  destruct (lazy_first p
              (fun m r => map (fun o2 => Outcome (m +:+ matched o2)
                                           (first_some (Some m) (captured o2))
                                           (rest o2)) (run r2 r))
              body u Hp) as [l Hl].
  { intros pre suf Hb Hsuf. now rewrite (Hno pre suf Hb Hsuf). }
  cbn beta in Hl. rewrite Hl, H2. simpl. eauto.
Qed.

Lemma name_char_dot (c : ascii) : name_char c = true -> dot c = true.
Proof.
  unfold name_char, dot, space, between.
  intros [Hs _]%andb_prop. apply negb_true_iff in Hs.
  destruct (code c =? 10) eqn:Hc; [| reflexivity].
  apply Nat.eqb_eq in Hc. rewrite Hc in Hs. discriminate.
Qed.

Lemma word_char_name_char (c : ascii) : word_char c = true -> name_char c = true.
Proof.
  destruct c as [[] [] [] [] [] [] [] []]; vm_compute; congruence.
Qed.

Lemma references_tail_nil (suf u : string) :
  suf <> "" -> Str.all_chars name_char suf = true ->
  run (Star space ⋅ Lit "(") (suf +:+ u) = [].
Proof.
  destruct suf as [|c suf]; [congruence |]. intros _ [Hc _]%andb_prop.
  apply andb_prop in Hc as [Hs Hp]. apply negb_true_iff in Hs, Hp.
  assert (Hpre : String.prefix "(" (String c (suf +:+ u)) = false).
  { destruct (String.prefix "(" (String c (suf +:+ u))) eqn:E; [| reflexivity].
    apply prefix_iff in E as [r Hr]. simpl in Hr. injection Hr as Hc _.
    rewrite Hc, Ascii.eqb_refl in Hp. discriminate Hp. }
  change (String c suf +:+ u) with (String c (suf +:+ u)).
  cbn [run greedy]. rewrite Hs. cbn [flat_map rest map app]. now rewrite Hpre.
Qed.

Lemma references_tail_head (ws' post : string) :
  Str.all_chars space ws' = true ->
  exists l,
    run (Star space ⋅ Lit "(") (ws' +:+ "(" +:+ post)
    = Outcome (ws' +:+ "(") None post :: l.
Proof.
  intros Hws.
  destruct (greedy_head space ws' ("(" +:+ post) Hws) as [l1 H1];
    [reflexivity |].
  exact (cat_head (Star space) (Lit "(") _ _ _ _ _ H1 (run_lit "(" post)).
Qed.

Lemma references_pattern_first (ws body ws' post : string) :
  ws <> "" -> Str.all_chars space ws = true ->
  body <> "" -> Str.all_chars name_char body = true ->
  Str.all_chars space ws' = true ->
  exists l,
    run references_pattern
      ("REFERENCES" +:+ ws +:+ body +:+ ws' +:+ "(" +:+ post)
    = Outcome ("REFERENCES" +:+ ws +:+ body +:+ ws' +:+ "(") (Some body) post
      :: l.
Proof.
  intros Hws Hspace Hbody Hname Hspace'.
  destruct (references_tail_head ws' post Hspace') as [l4 H4].
  assert (Hno : forall pre suf, body = pre +:+ suf -> suf <> "" ->
            run (Star space ⋅ Lit "(") (suf +:+ ws' +:+ "(" +:+ post) = []).
  { intros pre suf -> Hsuf. apply references_tail_nil; [exact Hsuf |].
    rewrite all_chars_app in Hname. now apply andb_prop in Hname as [_ ?]. }
  destruct (cat_lazy_head dot _ body _ _ _
              (all_chars_impl _ _ _ name_char_dot Hname) Hno H4) as [l3 H3].
  destruct (plus_head space ws (body +:+ ws' +:+ "(" +:+ post) Hws Hspace)
    as [l2 H2].
  { destruct body as [|c body]; [congruence |]. simpl in *.
    apply andb_prop in Hname as [Hc _]. apply andb_prop in Hc as [Hc _].
    now apply negb_true_iff in Hc. }
  destruct (cat_head _ _ _ _ _ _ _ H2 H3) as [l23 H23].
  destruct (cat_head _ _ _ _ _ _ _
              (run_lit "REFERENCES" (ws +:+ body +:+ ws' +:+ "(" +:+ post))
              H23) as [l H].
  exists l. unfold references_pattern. rewrite H.
  cbn [matched captured rest first_some]. reflexivity.
Qed.

End Heads.

(** ** The error-message matcher *)

(** C7. [_match_table_not_found_string] returns true exactly for the
    messages in which "Table or view not found" or "TABLE_OR_VIEW_NOT_FOUND"
    occurs as a literal substring, and false for all the others. *)
Theorem match_table_not_found_string_spec (message : string) :
  _match_table_not_found_string message = true <->
  Str.Substring "Table or view not found" message
  \/ Str.Substring "TABLE_OR_VIEW_NOT_FOUND" message.
Proof.
  unfold _match_table_not_found_string, any. simpl.
  rewrite orb_false_r, orb_true_iff, !contains_iff. reflexivity.
Qed.

Lemma match_table_not_found_string_witness :
  _match_table_not_found_string "Error: Table or view not found: t1" = true
  /\ _match_table_not_found_string "[TABLE_OR_VIEW_NOT_FOUND] t1" = true
  /\ _match_table_not_found_string "Syntax error" <> true.
Proof.
  split; [| split].
  - apply (match_table_not_found_string_spec
             "Error: Table or view not found: t1").
    left. exists "Error: ", ": t1". reflexivity.
  - apply (match_table_not_found_string_spec "[TABLE_OR_VIEW_NOT_FOUND] t1").
    right. exists "[", "] t1". reflexivity.
  - intros H. apply (match_table_not_found_string_spec "Syntax error") in H.
    destruct H as [H | H]; apply contains_iff in H; discriminate H.
Defined.

(** ** The row filter *)

(** C9. [match_dte_rows_by_value] keeps, in their order and as they are, the
    rows whose [data_type] holds the match string as a literal substring. *)
Theorem match_dte_rows_by_value_spec (dte_output : list row) (m : string) :
  match_dte_rows_by_value dte_output m
  = List.filter (fun r => m in_str data_type r) dte_output
  /\ forall r, (m in_str data_type r) = true <-> Str.Substring m (data_type r).
Proof.
  split; [apply match_dte_rows_by_value_filter |].
  intros r. apply contains_iff.
Qed.

(** C4. Without a row holding "PRIMARY KEY", the primary-key selection is
    the empty list, and not [None]. *)
Theorem get_pk_strings_no_match (dte_output : list row) :
  (forall r, In r dte_output -> ~ Str.Substring "PRIMARY KEY" (data_type r)) ->
  get_pk_strings_from_dte_output dte_output = Some [].
Proof.
  intros Hno. unfold get_pk_strings_from_dte_output. f_equal.
  rewrite match_dte_rows_by_value_filter.
  induction dte_output as [|r rows IH]; simpl; [reflexivity |].
  assert (Hr : ("PRIMARY KEY" in_str data_type r) = false).
  { apply contains_false_iff, Hno. now left. }
  rewrite Hr. apply IH. intros r' Hin. apply Hno. now right.
Qed.

Lemma get_pk_strings_no_match_witness :
  get_pk_strings_from_dte_output
    [Row "id" "int"; Row "fk_parent" "FOREIGN KEY (`id`) REFERENCES `m`.`s`.`t` (`id`)"]
  = Some [].
Proof.
  apply get_pk_strings_no_match. intros r Hin.
  apply contains_false_iff.
  destruct Hin as [<- | [<- | []]]; reflexivity.
Defined.

(** ** The identifier extractor *)

Section Identifiers.

Lemma extract_identifiers_findall (s : string) :
  extract_identifiers_from_string s = Re.findall identifier_pattern s.
Proof. unfold extract_identifiers_from_string. apply map_id. Qed.

Lemma extract_identifiers_Scan (s : string) :
  Scan s (extract_identifiers_from_string s).
Proof.
  rewrite extract_identifiers_findall.
  now apply (findall_identifier_Scan (String.length s)).
Qed.

Lemma Token_backtick (x s : string) : Token x s -> ("`" in_str s) = true.
Proof.
  intros (_ & _ & pre & post & ->). apply contains_iff.
  exists pre, (x +:+ "`" +:+ post). unfold quoted.
  now rewrite !app_assoc.
Qed.

End Identifiers.

(** C8, as stated, fails: the closing backtick of one token does not open
    the next, so a token that overlaps the previous one is not returned. *)
Lemma extract_identifiers_overlap :
  Token "b" "`a`b`" /\ ~ In "b" (extract_identifiers_from_string "`a`b`").
Proof.
  split.
  - repeat split; [discriminate |]. now exists "`a", "".
  - vm_compute. intros [H | []]. discriminate H.
Qed.

(** C8, amended. [extract_identifiers_from_string] returns the tokens met
    when reading the input from left to right, reading on after the closing
    backtick of each, and no other list is such a reading; each element is a
    backtick-quoted run of [[A-Za-z0-9_]] of the input, and the result is
    empty when the input has no such token. The function is total: no
    input makes it raise. *)
Theorem extract_identifiers_from_string_spec (s : string) :
  Scan s (extract_identifiers_from_string s)
  /\ (forall xs, Scan s xs -> xs = extract_identifiers_from_string s)
  /\ (forall x, In x (extract_identifiers_from_string s) -> Token x s)
  /\ ((forall x, ~ Token x s) -> extract_identifiers_from_string s = []).
Proof.
  pose proof (extract_identifiers_Scan s) as HS. split; [exact HS |].
  split; [| split].
  - intros xs Hxs. exact (Scan_functional _ _ _ Hxs HS).
  - now apply Scan_sound.
  - now apply Scan_nil_iff.
Qed.

Lemma extract_identifiers_from_string_witness :
  Token "b" "(`a`, `b`, `c`)"
  /\ extract_identifiers_from_string "PRIMARY KEY ()" = []
  /\ ["a"; "a"] = extract_identifiers_from_string "`a` `a`".
Proof.
  split; [| split].
  - destruct (extract_identifiers_from_string_spec "(`a`, `b`, `c`)")
      as (_ & _ & H & _).
    apply H. vm_compute. auto.
  - destruct (extract_identifiers_from_string_spec "PRIMARY KEY ()")
      as (_ & _ & _ & H).
    apply H. intros x Hx%Token_backtick. discriminate Hx.
  - destruct (extract_identifiers_from_string_spec "`a` `a`")
      as (_ & H & _).
    apply H.
    assert (Ha : TokenAt "a" (quoted "a" +:+ " `a`")).
    { repeat split; [discriminate |]. now exists " `a`". }
    assert (Ha' : TokenAt "a" (quoted "a" +:+ "")).
    { repeat split; [discriminate |]. now exists "". }
    apply (Scan_token "a" " `a`" ["a"] Ha).
    apply (Scan_skip " " "`a`" ["a"]).
    { intros x (_ & _ & post & Hpost). discriminate Hpost. }
    apply (Scan_token "a" "" [] Ha'). constructor.
Defined.

(** ** The qualified-name extractor *)

Section QualifiedName.

Lemma extract_three_level_findall (s : string) :
  extract_three_level_identifier_from_constraint_string s
  = match Re.findall references_pattern s with
    | [] => Ok None
    | first_match :: _ => three_level_of first_match
    end.
Proof. reflexivity. Qed.

Lemma list_item_Ok {A} (l : list A) (i : nat) (a : A) :
  list_item l i = Ok a <-> l !! i = Some a.
Proof.
  unfold list_item. destruct (l !! i); split; congruence.
Qed.

Lemma three_level_of_Ok (m : string) (q : option dict) :
  three_level_of m = Ok q <->
  exists p0 p1 p2 ps,
    Str.split "." m = p0 :: p1 :: p2 :: ps
    /\ q = Some {[ "catalog" := VStr (strip_backticks p0);
                   "schema" := VStr (strip_backticks p1);
                   "table" := VStr (strip_backticks p2) ]}.
Proof.
  unfold three_level_of.
  destruct (Str.split "." m) as [|p0 [|p1 [|p2 ps]]]; simpl; split;
    try discriminate; try (intros (? & ? & ? & ? & ? & _); discriminate).
  - intros [= <-]. eauto 6.
  - intros (? & ? & ? & ? & [= <- <- <- <-] & ->). reflexivity.
Qed.

Lemma three_level_lookup (a b c k : string) (v : pyval) :
  ({[ "catalog" := VStr a; "schema" := VStr b; "table" := VStr c ]} : dict)
    !! k = Some v ->
  (k = "catalog" /\ v = VStr a) \/ (k = "schema" /\ v = VStr b)
  \/ (k = "table" /\ v = VStr c).
Proof.
  rewrite !lookup_insert_Some, lookup_singleton_Some. intuition auto.
Qed.

Lemma strip_backticks_part (m p : string) :
  In p (Str.split "." m) ->
  Without "`" (strip_backticks p) /\ Without "." (strip_backticks p).
Proof.
  intros Hin. split; [apply replace_Without |].
  apply replace_keeps_Without. now apply (split_Without _ m).
Qed.

Lemma split_three (a b c : string) :
  Identifier a -> Identifier b -> Identifier c ->
  Str.split "." (qualified a b c) = [quoted a; quoted b; quoted c].
Proof.
  assert (Hq : forall x, Identifier x -> Without "." (quoted x)).
  { intros x Hx. unfold Without, quoted. simpl. rewrite all_chars_app. simpl.
    rewrite andb_true_r. now apply (Identifier_Without "."). }
  intros Ha Hb Hc.
  change (qualified a b c)
    with (quoted a +:+ String "." (quoted b +:+ String "." (quoted c))).
  rewrite split_app by auto. rewrite split_app by auto.
  rewrite split_atom by auto. reflexivity.
Qed.

Lemma qualified_name_chars (a b c : string) :
  Identifier a -> Identifier b -> Identifier c ->
  Str.all_chars name_char (qualified a b c) = true.
Proof.
  assert (Hq : forall x, Identifier x ->
                         Str.all_chars name_char (quoted x) = true).
  { intros x Hx. unfold quoted. simpl. rewrite all_chars_app.
    now rewrite (all_chars_impl _ _ _ word_char_name_char Hx). }
  intros Ha Hb Hc. unfold qualified.
  now rewrite !all_chars_app, !Hq by assumption.
Qed.

Lemma three_level_of_qualified (a b c : string) :
  Identifier a -> Identifier b -> Identifier c ->
  three_level_of (qualified a b c)
  = Ok (Some {[ "catalog" := VStr a; "schema" := VStr b; "table" := VStr c ]}).
Proof.
  intros Ha Hb Hc. unfold three_level_of. rewrite split_three by assumption.
  simpl. now rewrite !strip_backticks_quoted by (now apply Identifier_Without).
Qed.

End QualifiedName.

(** C3, as stated, fails: whatever stands between [REFERENCES] and the
    parenthesis is split at the dots and only loses its backticks. *)
Lemma qualified_name_not_identifier :
  exists q,
    extract_three_level_identifier_from_constraint_string
      "FOREIGN KEY (`p`) REFERENCES `a-b`.`s`.`t` (`x`)" = Ok (Some q)
    /\ q !! "catalog" = Some (VStr "a-b")
    /\ ~ Identifier "a-b".
Proof.
  eexists. split; [vm_compute; reflexivity |]. split; [reflexivity |].
  discriminate.
Qed.

(** C3, amended. Every identifier returned by
    [extract_identifiers_from_string] is a non-empty string of
    [[A-Za-z0-9_]]. The three parts of a qualified name hold no backtick
    and no dot; they are strings of [[A-Za-z0-9_]] when the first
    [REFERENCES] clause of the input names three such strings, each between
    backticks, separated by dots. *)
Theorem identifiers_spec (s : string) :
  (forall x, In x (extract_identifiers_from_string s) ->
             x <> "" /\ Identifier x)
  /\ (forall q k v,
        extract_three_level_identifier_from_constraint_string s = Ok (Some q) ->
        q !! k = Some v ->
        exists x, v = VStr x /\ Without "`" x /\ Without "." x)
  /\ (forall pre ws a b c ws' post,
        let clause :=
          "REFERENCES" +:+ ws +:+ qualified a b c +:+ ws' +:+ "(" +:+ post in
        s = pre +:+ clause ->
        NoMatchBefore references_pattern pre clause ->
        ws <> "" -> Spaces ws -> Spaces ws' ->
        Identifier a -> Identifier b -> Identifier c ->
        extract_three_level_identifier_from_constraint_string s
        = Ok (Some {[ "catalog" := VStr a; "schema" := VStr b;
                      "table" := VStr c ]})).
Proof.
  split; [| split].
  - intros x Hin.
    destruct (Scan_sound _ _ (extract_identifiers_Scan s) x Hin) as (? & ? & _).
    auto.
  - intros q k v. rewrite extract_three_level_findall.
    destruct (Re.findall references_pattern s) as [|m ms]; [discriminate |].
    intros (p0 & p1 & p2 & ps & Hsplit & [= ->])%three_level_of_Ok Hk.
    assert (Hin : forall p, In p [p0; p1; p2] -> In p (Str.split "." m)).
    { rewrite Hsplit. simpl. tauto. }
    apply three_level_lookup in Hk as [[_ ->] | [[_ ->] | [_ ->]]];
      eexists; (split; [reflexivity |]);
      apply (strip_backticks_part m), Hin; simpl; auto.
  - intros pre ws a b c ws' post clause -> Hbefore Hws Hsp Hsp' Ha Hb Hc.
    rewrite extract_three_level_findall, findall_leftmost by assumption.
    assert (Hq : qualified a b c <> "") by discriminate.
    destruct (references_pattern_first ws (qualified a b c) ws' post Hws Hsp
                Hq (qualified_name_chars a b c Ha Hb Hc) Hsp') as [l Hrun].
    fold clause in Hrun.
    rewrite (findall_hit _ _ _ _ Hrun) by discriminate.
    now apply three_level_of_qualified.
Qed.

Lemma identifiers_spec_witness :
  ("b_1" <> "" /\ Identifier "b_1")
  /\ (exists x, VStr "a-b" = VStr x /\ Without "`" x /\ Without "." x)
  /\ extract_three_level_identifier_from_constraint_string
       "FOREIGN KEY (`p`) REFERENCES `cat`.`sch`.`tbl` (`x`)"
     = Ok (Some {[ "catalog" := VStr "cat"; "schema" := VStr "sch";
                   "table" := VStr "tbl" ]}).
Proof.
  split; [| split].
  - apply (identifiers_spec "(`a`, `b_1`)"). vm_compute. auto.
  - destruct (identifiers_spec
                "FOREIGN KEY (`p`) REFERENCES `a-b`.`s`.`t` (`x`)")
      as (_ & H & _).
    apply (H {[ "catalog" := VStr "a-b"; "schema" := VStr "s";
                "table" := VStr "t" ]} "catalog");
      vm_compute; reflexivity.
  - destruct (identifiers_spec
                "FOREIGN KEY (`p`) REFERENCES `cat`.`sch`.`tbl` (`x`)")
      as (_ & _ & H).
    apply (H "FOREIGN KEY (`p`) " " " "cat" "sch" "tbl" " " "`x`)");
      try reflexivity; try discriminate.
    apply NoMatchBefore_suffixes. intros v Hin. simpl in Hin.
    repeat (destruct Hin as [<- | Hin]; [reflexivity |]). destruct Hin.
Defined.

(** ** The foreign-key assembler *)

Section ForeignKey.

Lemma dict_item_Ok (d : option dict) (key : string) (v : pyval) :
  dict_item d key = Ok v <-> exists m, d = Some m /\ m !! key = Some v.
Proof.
  unfold dict_item. destruct d as [m|].
  - destruct (m !! key) eqn:Hk; split.
    + intros [= ->]. eauto.
    + intros (? & [= <-] & H). congruence.
    + discriminate.
    + intros (? & [= <-] & H). congruence.
  - split; [discriminate | intros (? & [=] & _)].
Qed.

Lemma parse_fk_Ok (s : string) (base : dict) :
  _parse_fk_from_constraint_string s = Ok base <->
  exists q t sch c r gs,
    extract_three_level_identifier_from_constraint_string s = Ok (Some q)
    /\ q !! "table" = Some t /\ q !! "schema" = Some sch
    /\ extract_identifier_groups_from_string s = c :: r :: gs
    /\ base = {[ "constrained_columns" :=
                   VList (extract_identifiers_from_string c);
                 "referred_table" := t;
                 "referred_columns" :=
                   VList (extract_identifiers_from_string r);
                 "referred_schema" := sch ]}.
Proof.
  unfold _parse_fk_from_constraint_string.
  destruct (extract_three_level_identifier_from_constraint_string s)
    as [[q|]|e]; simpl.
  2,3: split; [discriminate | intros (? & ? & ? & ? & ? & ? & [=] & _)].
  destruct (q !! "table") as [t|] eqn:Ht; simpl.
  2: split; [discriminate |];
     intros (? & ? & ? & ? & ? & ? & [= <-] & H & _); congruence.
  destruct (q !! "schema") as [sch|] eqn:Hsch; simpl.
  2: split; [discriminate |];
     intros (? & ? & ? & ? & ? & ? & [= <-] & _ & H & _); congruence.
  destruct (extract_identifier_groups_from_string s) as [|c [|r gs]]; simpl.
  1,2: split; [discriminate |];
       intros (? & ? & ? & ? & ? & ? & _ & _ & _ & [=] & _).
  split.
  - intros [= <-]. exists q, t, sch, c, r, gs. auto.
  - intros (? & ? & ? & ? & ? & ? & [= <-] & Ht' & Hs' & [= <- <- <-] & ->).
    congruence.
Qed.

Lemma parse_fk_no_name (s : string) (base : dict) :
  _parse_fk_from_constraint_string s = Ok base -> base !! "name" = None.
Proof.
  intros (q & t & sch & c & r & gs & _ & _ & _ & _ & ->)%parse_fk_Ok.
  reflexivity.
Qed.

Lemma build_fk_dict_unfold (fk s : string) (schema_name : option string) :
  build_fk_dict fk s schema_name
  = match _parse_fk_from_constraint_string s with
    | Ok base =>
        Ok (unpack (unpack {[ "name" := VStr fk ]} base)
                   (if negb (truthy schema_name)
                    then {[ "referred_schema" := VNone ]} else ∅))
    | Raise e => Raise e
    end.
Proof. reflexivity. Qed.

Lemma unpack_lookup (d e : dict) (k : string) :
  unpack d e !! k = match e !! k with
                    | Some v => Some v
                    | None => d !! k
                    end.
Proof.
  unfold unpack. destruct (e !! k) as [v|] eqn:Hk.
  - now apply lookup_union_Some_l.
  - now apply lookup_union_r.
Qed.

Lemma unpack_name_lookup (fk : string) (base : dict) (k : string) :
  base !! "name" = None ->
  unpack {[ "name" := VStr fk ]} base !! k
  = if decide (k = "name") then Some (VStr fk) else base !! k.
Proof.
  intros Hname. rewrite unpack_lookup.
  destruct (decide (k = "name")) as [-> | Hk].
  - rewrite Hname. apply lookup_singleton_eq.
  - destruct (base !! k); [reflexivity |]. now apply lookup_singleton_ne.
Qed.

End ForeignKey.

(** C1. The foreign-key line of the specification, with name [fk1] and
    schema [sch]. *)
Theorem build_fk_dict_round_trip :
  build_fk_dict "fk1"
    "FOREIGN KEY (`p`,`q`) REFERENCES `cat`.`sch`.`tbl` (`x`,`y`)"
    (Some "sch")
  = Ok {[ "name" := VStr "fk1";
          "constrained_columns" := VList ["p"; "q"];
          "referred_table" := VStr "tbl";
          "referred_schema" := VStr "sch";
          "referred_columns" := VList ["x"; "y"] ]}.
Proof. vm_compute. reflexivity. Qed.

(** C2. With no schema name, [referred_schema] is [None] whatever the
    constraint string says; the name is the one given and the other entries
    are those parsed. *)
Theorem build_fk_dict_no_schema
    (fk s : string) (schema_name : option string) (base : dict) :
  _parse_fk_from_constraint_string s = Ok base ->
  truthy schema_name = false ->
  exists d,
    build_fk_dict fk s schema_name = Ok d
    /\ d !! "referred_schema" = Some VNone
    /\ d !! "name" = Some (VStr fk)
    /\ forall k, k <> "referred_schema" -> k <> "name" -> d !! k = base !! k.
Proof.
  intros Hbase Hfalsy. rewrite build_fk_dict_unfold, Hbase, Hfalsy.
  cbn [negb]. eexists. split; [reflexivity |].
  pose proof (parse_fk_no_name _ _ Hbase) as Hname.
  split; [| split].
  - rewrite unpack_lookup. now rewrite lookup_singleton_eq.
  - rewrite unpack_lookup, lookup_singleton_ne by discriminate.
    now rewrite unpack_name_lookup.
  - intros k Hk Hk'. rewrite unpack_lookup, lookup_singleton_ne by congruence.
    rewrite unpack_name_lookup by assumption. now destruct (decide _).
Qed.

Lemma build_fk_dict_no_schema_witness :
  exists d,
    build_fk_dict "fk1"
      "FOREIGN KEY (`p`,`q`) REFERENCES `cat`.`sch`.`tbl` (`x`,`y`)" None
    = Ok d
    /\ d !! "referred_schema" = Some VNone
    /\ d !! "name" = Some (VStr "fk1")
    /\ forall k, k <> "referred_schema" -> k <> "name" ->
         d !! k = ({[ "constrained_columns" := VList ["p"; "q"];
                      "referred_table" := VStr "tbl";
                      "referred_columns" := VList ["x"; "y"];
                      "referred_schema" := VStr "sch" ]} : dict) !! k.
Proof.
  apply build_fk_dict_no_schema; [vm_compute |]; reflexivity.
Defined.

Section SchemaGate.

Lemma extract_three_level_Some (s : string) (q : dict) :
  extract_three_level_identifier_from_constraint_string s = Ok (Some q) ->
  exists a b c,
    q = {[ "catalog" := VStr a; "schema" := VStr b; "table" := VStr c ]}.
Proof.
  rewrite extract_three_level_findall.
  destruct (Re.findall references_pattern s) as [|m ms]; [discriminate |].
  intros (p0 & p1 & p2 & ps & _ & [= ->])%three_level_of_Ok. eauto.
Qed.

Lemma build_fk_dict_Raise (fk s : string) (schema_name : option string)
    (e : exn) :
  _parse_fk_from_constraint_string s = Raise e ->
  build_fk_dict fk s schema_name = Raise e.
Proof. intros H. now rewrite build_fk_dict_unfold, H. Qed.

End SchemaGate.

(** C10. With a schema name that is not empty, [referred_schema] is the
    schema read in the constraint string; which name was given makes no
    difference to the result. *)
Theorem build_fk_dict_schema_gate
    (fk s : string) (schema_name : option string) (d : dict) :
  truthy schema_name = true ->
  build_fk_dict fk s schema_name = Ok d ->
  (exists q sch,
      extract_three_level_identifier_from_constraint_string s = Ok (Some q)
      /\ q !! "schema" = Some (VStr sch)
      /\ d !! "referred_schema" = Some (VStr sch))
  /\ (forall other, truthy other = true -> build_fk_dict fk s other = Ok d).
Proof.
  intros Htruthy. rewrite build_fk_dict_unfold.
  destruct (_parse_fk_from_constraint_string s) as [base|e] eqn:Hbase;
    [| discriminate].
  rewrite Htruthy. cbn [negb]. intros [= <-]. split.
  - pose proof (parse_fk_no_name _ _ Hbase) as Hname.
    apply parse_fk_Ok in Hbase
      as (q & t & v & c & r & gs & Hq & _ & Hv & _ & ->).
    destruct (extract_three_level_Some _ _ Hq) as (a & b & c' & ->).
    eexists _, b. split; [exact Hq |]. split; [reflexivity |].
    rewrite unpack_lookup, lookup_empty, unpack_name_lookup by assumption.
    cbn in Hv. injection Hv as <-. reflexivity.
  - intros other Hother. now rewrite build_fk_dict_unfold, Hbase, Hother.
Qed.

Lemma build_fk_dict_schema_gate_witness :
  (exists q sch,
      extract_three_level_identifier_from_constraint_string
        "FOREIGN KEY (`p`,`q`) REFERENCES `cat`.`sch`.`tbl` (`x`,`y`)"
      = Ok (Some q)
      /\ q !! "schema" = Some (VStr sch)
      /\ ({[ "name" := VStr "fk1";
             "constrained_columns" := VList ["p"; "q"];
             "referred_table" := VStr "tbl";
             "referred_schema" := VStr "sch";
             "referred_columns" := VList ["x"; "y"] ]} : dict)
           !! "referred_schema" = Some (VStr sch))
  /\ (forall other, truthy other = true ->
        build_fk_dict "fk1"
          "FOREIGN KEY (`p`,`q`) REFERENCES `cat`.`sch`.`tbl` (`x`,`y`)" other
        = Ok {[ "name" := VStr "fk1";
                "constrained_columns" := VList ["p"; "q"];
                "referred_table" := VStr "tbl";
                "referred_schema" := VStr "sch";
                "referred_columns" := VList ["x"; "y"] ]}).
Proof.
  apply (build_fk_dict_schema_gate "fk1" _ (Some "default"));
    [| vm_compute]; reflexivity.
Defined.

(** C5. A string in which [REFERENCES ... (] does not occur, or with fewer
    than two parenthesized groups, makes the assembler raise: no dictionary
    is returned. *)
Theorem build_fk_dict_malformed (s : string) :
  ~ Re.Occurs references_pattern s
  \/ length (extract_identifier_groups_from_string s) < 2 ->
  exists e,
    _parse_fk_from_constraint_string s = Raise e
    /\ forall fk schema_name, build_fk_dict fk s schema_name = Raise e.
Proof.
  intros Hbad.
  destruct (_parse_fk_from_constraint_string s) as [base|e] eqn:Hparse.
  - exfalso.
    apply parse_fk_Ok in Hparse
      as (q & t & v & c & r & gs & Hq & _ & _ & Hgroups & _).
    destruct Hbad as [Hno | Hlen].
    + apply findall_nil_iff in Hno.
      rewrite extract_three_level_findall, Hno in Hq. discriminate.
    + rewrite Hgroups in Hlen. simpl in Hlen. lia.
  - exists e. split; [reflexivity |]. intros fk schema_name.
    now apply build_fk_dict_Raise.
Qed.

Lemma build_fk_dict_malformed_witness :
  (exists e,
      _parse_fk_from_constraint_string "PRIMARY KEY (`id`, `name`)" = Raise e
      /\ forall fk schema_name,
           build_fk_dict fk "PRIMARY KEY (`id`, `name`)" schema_name = Raise e)
  /\ (exists e,
        _parse_fk_from_constraint_string
          "FOREIGN KEY `p` REFERENCES `cat`.`sch`.`tbl` (`x`)" = Raise e
        /\ forall fk schema_name,
             build_fk_dict fk
               "FOREIGN KEY `p` REFERENCES `cat`.`sch`.`tbl` (`x`)"
               schema_name = Raise e).
Proof.
  split; apply build_fk_dict_malformed.
  - left. apply findall_nil_iff. reflexivity.
  - right. vm_compute. lia.
Defined.

(** ** The first match of [REFERENCES ... (] *)

Section FirstMatch.

Import Re.

Lemma references_pattern_head (t : string) (o : outcome) (os : list outcome) :
  run references_pattern t = o :: os -> matched o <> "".
Proof.
  intros Hrun.
  destruct (run_sound references_pattern t o) as [_ Hm].
  { rewrite Hrun. now left. }
  unfold references_pattern in Hm.
  apply Matches_cat_inv in Hm as (l & ? & ? & ? & -> & _ & Hm & _).
  apply Matches_lit_inv in Hm as [-> _]. discriminate.
Qed.

End FirstMatch.

(** C6. When [REFERENCES ... (] occurs nowhere in the input the result is
    [None], and nothing is raised. Otherwise the result is built from the
    match found at the leftmost position where the pattern matches, whatever
    follows that match. *)
Theorem extract_three_level_first_match (s : string) :
  (~ Re.Occurs references_pattern s ->
   extract_three_level_identifier_from_constraint_string s = Ok None)
  /\ (forall pre t o os,
        s = pre +:+ t ->
        NoMatchBefore references_pattern pre t ->
        Re.run references_pattern t = o :: os ->
        extract_three_level_identifier_from_constraint_string s
        = three_level_of (Re.item o)).
Proof.
  rewrite extract_three_level_findall. split.
  - intros Hno%findall_nil_iff. now rewrite Hno.
  - intros pre t o os -> Hpre Hrun.
    rewrite findall_leftmost by assumption.
    now rewrite (findall_hit _ _ _ _ Hrun (references_pattern_head _ _ _ Hrun)).
Qed.

Lemma extract_three_level_first_match_witness :
  extract_three_level_identifier_from_constraint_string "PRIMARY KEY (`id`)"
  = Ok None
  /\ exists o os,
       Re.run references_pattern
         "REFERENCES `a`.`b`.`c` (`x`) REFERENCES `d`.`e`.`f` (`y`)" = o :: os
       /\ Re.item o = "`a`.`b`.`c`"
       /\ extract_three_level_identifier_from_constraint_string
            "KEY (`p`) REFERENCES `a`.`b`.`c` (`x`) REFERENCES `d`.`e`.`f` (`y`)"
          = three_level_of (Re.item o).
Proof.
  split.
  - apply (extract_three_level_first_match "PRIMARY KEY (`id`)").
    apply findall_nil_iff. reflexivity.
  - destruct (Re.run references_pattern
                "REFERENCES `a`.`b`.`c` (`x`) REFERENCES `d`.`e`.`f` (`y`)")
      as [|o os] eqn:Hrun; [vm_compute in Hrun; discriminate Hrun |].
    exists o, os. split; [reflexivity |]. split.
    + vm_compute in Hrun. injection Hrun as <- _. reflexivity.
    + apply (proj2 (extract_three_level_first_match
                      "KEY (`p`) REFERENCES `a`.`b`.`c` (`x`) REFERENCES `d`.`e`.`f` (`y`)")
                   "KEY (`p`) "
                   "REFERENCES `a`.`b`.`c` (`x`) REFERENCES `d`.`e`.`f` (`y`)"
                   o os);
        [reflexivity | | exact Hrun].
      apply NoMatchBefore_suffixes. intros v Hin. simpl in Hin.
      repeat (destruct Hin as [<- | Hin]; [reflexivity |]). destruct Hin.
Defined.

(** ** The examples of the specification *)

Example extract_identifiers_example :
  extract_identifiers_from_string "(`a`, `b`, `c`)" = ["a"; "b"; "c"].
Proof. reflexivity. Qed.

Example extract_identifier_groups_example :
  extract_identifier_groups_from_string
    "FOREIGN KEY (`pname`, `pid`, `pattr`) REFERENCES `main`.`pysql_sqlalchemy`.`tb1` (`name`, `id`, `attr`)"
  = ["(`pname`, `pid`, `pattr`)"; "(`name`, `id`, `attr`)"].
Proof. reflexivity. Qed.

Example extract_three_level_example :
  extract_three_level_identifier_from_constraint_string
    "FOREIGN KEY (`parent_user_id`) REFERENCES `main`.`pysql_dialect_compliance`.`users` (`user_id`)"
  = Ok (Some {[ "catalog" := VStr "main";
                "schema" := VStr "pysql_dialect_compliance";
                "table" := VStr "users" ]}).
Proof. vm_compute. reflexivity. Qed.

Example build_pk_dict_example :
  build_pk_dict "pk1" "PRIMARY KEY (`id`, `name`)"
  = {[ "name" := VStr "pk1"; "constrained_columns" := VList ["id"; "name"] ]}.
Proof. vm_compute. reflexivity. Qed.

Example match_dte_rows_by_value_example :
  match_dte_rows_by_value
    [Row "c1" "FOREIGN KEY (...)"; Row "c2" "int"] "FOREIGN KEY"
  = [Row "c1" "FOREIGN KEY (...)"].
Proof. reflexivity. Qed.

Example match_table_not_found_string_example :
  _match_table_not_found_string "Syntax error" = false.
Proof. reflexivity. Qed.

(** * More of the module *)

Section Tokens.
Import Re.

Lemma findall_gap_hit (r : regex) (gap t : string) (o : outcome)
    (os : list outcome) :
  NoMatchBefore r gap t -> run r t = o :: os -> matched o <> "" ->
  findall r (gap +:+ t) = item o :: findall r (rest o).
Proof.
  intros Hgap Hrun Hne. rewrite findall_leftmost by assumption.
  now apply (findall_hit r t o os).
Qed.

Lemma NoMatchBefore_nil (r : regex) (t : string) : NoMatchBefore r "" t.
Proof.
  intros u v H Hv. symmetry in H. apply app_eq_nil in H as [_ ->]. congruence.
Qed.

Lemma NoMatchBefore_cons (r : regex) (c : ascii) (pre t : string) :
  ~ MatchesAt r (String c (pre +:+ t)) -> NoMatchBefore r pre t ->
  NoMatchBefore r (String c pre) t.
Proof.
  intros Hc Hpre [|d u] v H Hv; simpl in H.
  - subst v. exact Hc.
  - injection H as _ ->. now apply (Hpre u v).
Qed.

Lemma NoMatchBefore_app (r : regex) (a b t : string) :
  NoMatchBefore r a (b +:+ t) -> NoMatchBefore r b t ->
  NoMatchBefore r (a +:+ b) t.
Proof.
  intros Ha Hb. induction a as [|c a IH]; [exact Hb |].
  simpl. apply NoMatchBefore_cons.
  - rewrite app_assoc. apply (Ha "" (String c a)); easy.
  - apply IH. intros u v -> Hv. apply (Ha (String c u) v); easy.
Qed.

(** No match starts at a character that cannot start one. *)
Lemma NoMatchBefore_chars (r : regex) (p : ascii -> bool) (gap t : string) :
  (forall c u, MatchesAt r (String c u) -> p c = false) ->
  Str.all_chars p gap = true -> NoMatchBefore r gap t.
Proof.
  intros Hstart. induction gap as [|c gap IH]; simpl.
  - intros _. apply NoMatchBefore_nil.
  - intros [Hc Hgap]%andb_prop. apply NoMatchBefore_cons; [| auto].
    intros Hm. apply Hstart in Hm. congruence.
Qed.

Lemma findall_none (r : regex) (p : ascii -> bool) (s : string) :
  (forall c u, MatchesAt r (String c u) -> p c = false) ->
  ~ MatchesAt r "" ->
  Str.all_chars p s = true -> findall r s = [].
Proof.
  intros Hstart Hnil Hs. rewrite <- (app_nil_r s).
  rewrite findall_leftmost by now apply (NoMatchBefore_chars r p).
  apply findall_miss. now apply run_nil_iff.
Qed.

Lemma identifier_pattern_start (c : ascii) (u : string) :
  MatchesAt identifier_pattern (String c u) ->
  negb (Ascii.eqb c "`") = false.
Proof.
  intros (x & _ & _ & post & H)%identifier_pattern_at.
  rewrite quoted_app in H. injection H as -> _. reflexivity.
Qed.

Lemma identifier_pattern_not_nil : ~ MatchesAt identifier_pattern "".
Proof.
  intros (x & _ & _ & post & H)%identifier_pattern_at.
  rewrite quoted_app in H. discriminate.
Qed.

Lemma identifier_pattern_token (x post : string) :
  x <> "" -> Identifier x ->
  exists o os,
    run identifier_pattern (quoted x +:+ post) = o :: os
    /\ item o = x /\ rest o = post /\ matched o <> "".
Proof.
  intros Hne Hx.
  destruct (run identifier_pattern (quoted x +:+ post)) as [|o os] eqn:Hrun.
  - exfalso. apply run_nil_iff in Hrun. apply Hrun, identifier_pattern_at.
    exists x. repeat split; eauto.
  - destruct (identifier_pattern_head _ _ _ Hrun)
      as (y & (_ & Hy & _) & Hs & Hi & Hm).
    apply quoted_inj in Hs as [-> ->]; auto.
    exists o, os. auto.
Qed.

Lemma findall_identifier_step (gap x post : string) :
  Without "`" gap -> x <> "" -> Identifier x ->
  findall identifier_pattern (gap +:+ quoted x +:+ post)
  = x :: findall identifier_pattern post.
Proof.
  intros Hgap Hne Hx.
  destruct (identifier_pattern_token x post Hne Hx)
    as (o & os & Hrun & <- & <- & Hm).
  apply (findall_gap_hit _ _ _ o os); [| assumption..].
  now apply (NoMatchBefore_chars _ _ _ _ identifier_pattern_start).
Qed.

Lemma findall_identifier_none (s : string) :
  Without "`" s -> findall identifier_pattern s = [].
Proof.
  apply findall_none;
    [apply identifier_pattern_start | apply identifier_pattern_not_nil].
Qed.

End Tokens.

(** X1. Whatever text without backtick stands before, between and after
    them, the backtick-quoted names of a string are returned, all of them
    and in their order. *)
Theorem extract_identifiers_weave
    (items : list (string * string)) (last : string) :
  Forall WellQuoted items -> Without "`" last ->
  extract_identifiers_from_string (weave quoted items last) = map snd items.
Proof.
  intros Hitems Hlast. rewrite extract_identifiers_findall.
  induction Hitems as [| [gap x] items (Hgap & Hne & Hx) _ IH];
    cbn [weave map snd].
  - now apply findall_identifier_none.
  - rewrite findall_identifier_step by assumption. now rewrite IH.
Qed.

Lemma extract_identifiers_weave_witness :
  extract_identifiers_from_string
    (weave quoted [("PRIMARY KEY (", "id"); (", ", "id"); (" , ", "e_1")] ")")
  = ["id"; "id"; "e_1"].
Proof.
  apply (extract_identifiers_weave
           [("PRIMARY KEY (", "id"); (", ", "id"); (" , ", "e_1")] ")");
    [| reflexivity].
  repeat (apply List.Forall_cons;
          [split; [reflexivity | split; [discriminate | reflexivity]] |]).
  apply List.Forall_nil.
Defined.

Section Groups.
Import Re.

Lemma findall_In (r : regex) :
  (forall t o os, run r t = o :: os -> matched o <> "") ->
  forall s x, In x (findall r s) ->
    exists pre o os,
      s = pre +:+ matched o +:+ rest o
      /\ run r (matched o +:+ rest o) = o :: os /\ item o = x.
Proof.
  intros Hne s. remember (String.length s) as n eqn:Hn.
  revert s Hn. induction n as [n IH] using lt_wf_ind. intros s -> x.
  destruct (run r s) as [|o os] eqn:Hrun.
  - rewrite findall_miss by assumption. destruct s as [|c s]; [intros [] |].
    intros Hin. destruct (IH (String.length s)) with (s := s) (x := x)
      as (pre & o & os & -> & Ho & Hx); simpl; auto.
    exists (String c pre), o, os. auto.
  - pose proof (Hne _ _ _ Hrun) as Hm.
    destruct (run_sound r s o) as [Hs _]; [rewrite Hrun; now left |].
    rewrite (findall_hit _ _ _ _ Hrun Hm). intros [<- | Hin].
    + exists "", o, os. rewrite <- Hs. auto.
    + destruct (IH (String.length (rest o))) with (s := rest o) (x := x)
        as (pre & o' & os' & Hr & Ho & Hx); auto.
      { rewrite Hs, app_length.
        destruct (matched o); [congruence | simpl; lia]. }
      exists (matched o +:+ pre), o', os'.
      rewrite app_assoc, <- Hr. auto.
Qed.

Lemma group_pattern_Matches (w : string) (g : option string) :
  Matches identifier_group_pattern w g <->
  exists body,
    Str.all_chars group_char body = true /\ w = grouped body /\ g = None.
Proof.
  unfold identifier_group_pattern, grouped. split.
  - intros (w1 & w23 & g1 & g23 & -> & -> & H1 & H23)%Matches_cat_inv.
    apply Matches_cat_inv in H23 as (w2 & w3 & g2 & g3 & -> & -> & H2 & H3).
    apply Matches_lit_inv in H1 as [-> ->], H3 as [-> ->].
    apply Matches_star_inv in H2 as [Hb ->]. exists w2. auto.
  - intros (body & Hb & -> & ->).
    change None with (@first_some string None (first_some None None)).
    apply M_cat; [| apply M_cat]; try apply M_lit. now apply M_star.
Qed.

Lemma group_pattern_head (t : string) (o : outcome) (os : list outcome) :
  run identifier_group_pattern t = o :: os -> matched o <> "".
Proof.
  intros Hrun.
  destruct (run_sound identifier_group_pattern t o) as [_ Hm].
  { rewrite Hrun. now left. }
  apply group_pattern_Matches in Hm as (body & _ & -> & _). discriminate.
Qed.

Lemma group_pattern_start (c : ascii) (u : string) :
  MatchesAt identifier_group_pattern (String c u) ->
  negb (Ascii.eqb c "(") = false.
Proof.
  intros (w & g & t & H & (body & _ & -> & _)%group_pattern_Matches).
  injection H as -> _. reflexivity.
Qed.

Lemma group_pattern_not_nil : ~ MatchesAt identifier_group_pattern "".
Proof.
  intros (w & g & t & H & (body & _ & -> & _)%group_pattern_Matches).
  discriminate.
Qed.

Lemma group_pattern_first (body post : string) :
  Str.all_chars group_char body = true ->
  exists l,
    run identifier_group_pattern (grouped body +:+ post)
    = Outcome (grouped body) None post :: l.
Proof.
  intros Hb.
  destruct (greedy_head group_char body (")" +:+ post) Hb) as [l1 H1];
    [reflexivity |].
  destruct (cat_head (Star group_char) (Lit ")") _ _ _ _ _ H1
              (run_lit ")" post)) as [l2 H2].
  destruct (cat_head (Lit "(") _ _ _ _ _ _
              (run_lit "(" (body +:+ ")" +:+ post)) H2) as [l H].
  exists l. unfold identifier_group_pattern, grouped.
  change (("(" +:+ body +:+ ")") +:+ post)
    with (String "(" ((body +:+ ")") +:+ post)).
  rewrite app_assoc. exact H.
Qed.

Lemma findall_group_step (gap body post : string) :
  Without "(" gap -> Str.all_chars group_char body = true ->
  findall identifier_group_pattern (gap +:+ grouped body +:+ post)
  = grouped body :: findall identifier_group_pattern post.
Proof.
  intros Hgap Hb. destruct (group_pattern_first body post Hb) as [l Hrun].
  rewrite (findall_gap_hit _ _ _ _ _
             (NoMatchBefore_chars _ _ _ _ group_pattern_start Hgap) Hrun);
    [reflexivity | discriminate].
Qed.

Lemma findall_group_none (s : string) :
  Without "(" s -> findall identifier_group_pattern s = [].
Proof.
  apply findall_none;
    [apply group_pattern_start | apply group_pattern_not_nil].
Qed.

Lemma extract_identifier_groups_findall (s : string) :
  extract_identifier_groups_from_string s
  = findall identifier_group_pattern s.
Proof. unfold extract_identifier_groups_from_string. apply map_id. Qed.

End Groups.

(** X2. Every group returned by [extract_identifier_groups_from_string] is
    a piece of the input that opens and closes with a parenthesis and holds
    between them only backticks, [[A-Za-z0-9_]], commas and white space. *)
Theorem extract_identifier_groups_sound (s g : string) :
  In g (extract_identifier_groups_from_string s) ->
  exists body,
    g = grouped body /\ Str.all_chars Re.group_char body = true
    /\ Str.Substring g s.
Proof.
  rewrite extract_identifier_groups_findall.
  intros (pre & o & os & -> & Hrun & <-)%(findall_In _ group_pattern_head).
  destruct (run_sound _ _ o ltac:(rewrite Hrun; now left)) as [_ Hm].
  apply group_pattern_Matches in Hm as (body & Hb & Hw & Hg).
  exists body. unfold Re.item. rewrite Hg, Hw. repeat split; auto.
  exists pre, (Re.rest o). reflexivity.
Qed.

Lemma extract_identifier_groups_sound_witness :
  exists body,
    "(`x`, `y`)" = grouped body
    /\ Str.all_chars Re.group_char body = true
    /\ Str.Substring "(`x`, `y`)"
         "FOREIGN KEY (a-b) REFERENCES `c`.`s`.`t` (`x`, `y`)".
Proof.
  apply (extract_identifier_groups_sound
           "FOREIGN KEY (a-b) REFERENCES `c`.`s`.`t` (`x`, `y`)").
  vm_compute. auto.
Defined.

(** X3. Groups of backticks, [[A-Za-z0-9_]], commas and white space between
    parentheses are returned whole, all of them and in their order,
    whatever text without opening parenthesis surrounds them. *)
Theorem extract_identifier_groups_weave
    (items : list (string * string)) (last : string) :
  Forall WellGrouped items -> Without "(" last ->
  extract_identifier_groups_from_string (weave grouped items last)
  = map (fun item => grouped (snd item)) items.
Proof.
  intros Hitems Hlast. rewrite extract_identifier_groups_findall.
  induction Hitems as [| [gap body] items [Hgap Hb] _ IH];
    cbn [weave map snd].
  - now apply findall_group_none.
  - rewrite findall_group_step by assumption. now rewrite IH.
Qed.

Lemma extract_identifier_groups_weave_witness :
  extract_identifier_groups_from_string
    (weave grouped
       [("FOREIGN KEY ", "`p`,`q`"); (" REFERENCES `c`.`s`.`t` ", "`x`, `y`")]
       "")
  = ["(`p`,`q`)"; "(`x`, `y`)"].
Proof.
  apply (extract_identifier_groups_weave
           [("FOREIGN KEY ", "`p`,`q`");
            (" REFERENCES `c`.`s`.`t` ", "`x`, `y`")] "");
    [| reflexivity].
  repeat (apply List.Forall_cons; [split; reflexivity |]).
  apply List.Forall_nil.
Defined.

Section ColumnLists.
Import Re.

Lemma Without_app (c : ascii) (a b : string) :
  Without c (a +:+ b) <-> Without c a /\ Without c b.
Proof. unfold Without. rewrite all_chars_app. apply andb_true_iff. Qed.

Lemma concat_cons2 (sep x y : string) (ys : list string) :
  String.concat sep (x :: y :: ys) = x +:+ sep +:+ String.concat sep (y :: ys).
Proof. reflexivity. Qed.

Lemma findall_identifier_concat (sep tail : string) (xs : list string) :
  Without "`" sep -> Without "`" tail -> Forall Name xs ->
  forall gap, Without "`" gap ->
    findall identifier_pattern
      (gap +:+ String.concat sep (map quoted xs) +:+ tail) = xs.
Proof.
  intros Hsep Htail Hxs.
  induction Hxs as [| x xs [Hne Hx] Hxs IH]; intros gap Hgap.
  - apply findall_identifier_none, Without_app. auto.
  - destruct xs as [|y ys].
    + change (String.concat sep (map quoted [x])) with (quoted x).
      rewrite findall_identifier_step by assumption.
      now rewrite findall_identifier_none.
    + change (map quoted (x :: y :: ys))
        with (quoted x :: quoted y :: map quoted ys).
      rewrite concat_cons2, !app_assoc.
      rewrite findall_identifier_step by assumption.
      f_equal. now apply IH.
Qed.

Lemma sep_char_not_backtick (c : ascii) :
  sep_char c = true -> negb (Ascii.eqb c "`") = true.
Proof.
  intros Hc. destruct (Ascii.eqb_spec c "`") as [-> |]; [discriminate | easy].
Qed.

Lemma sep_char_group_char (c : ascii) : sep_char c = true -> group_char c = true.
Proof.
  unfold sep_char, group_char. intros [-> | ->]%orb_prop;
    now rewrite ?orb_true_r.
Qed.

Lemma word_char_group_char (c : ascii) : word_char c = true -> group_char c = true.
Proof. unfold group_char. intros ->. now rewrite orb_true_r. Qed.

Lemma Separator_Without (sep : string) : Separator sep -> Without "`" sep.
Proof. apply all_chars_impl, sep_char_not_backtick. Qed.

Lemma quoted_group_chars (x : string) :
  Identifier x -> Str.all_chars group_char (quoted x) = true.
Proof.
  intros Hx. unfold quoted. simpl. rewrite all_chars_app.
  now rewrite (all_chars_impl _ _ _ word_char_group_char Hx).
Qed.

Lemma concat_group_chars (sep : string) (xs : list string) :
  Separator sep -> Forall Name xs ->
  Str.all_chars group_char (String.concat sep (map quoted xs)) = true.
Proof.
  intros Hsep Hxs. induction Hxs as [| x xs [_ Hx] Hxs IH]; [reflexivity |].
  destruct xs as [|y ys].
  - now apply quoted_group_chars.
  - change (map quoted (x :: y :: ys))
      with (quoted x :: quoted y :: map quoted ys).
    rewrite concat_cons2, !all_chars_app, quoted_group_chars by assumption.
    rewrite (all_chars_impl _ _ _ sep_char_group_char Hsep). exact IH.
Qed.

Lemma extract_identifiers_column_list (sep : string) (xs : list string) :
  Separator sep -> Forall Name xs ->
  extract_identifiers_from_string (column_list sep xs) = xs.
Proof.
  intros Hsep Hxs. rewrite extract_identifiers_findall.
  apply (findall_identifier_concat sep ")" xs); auto using Separator_Without;
    reflexivity.
Qed.

End ColumnLists.

(** X4. A list of backtick-quoted names between parentheses, in any text
    without backtick, gives the primary key with exactly these names as
    its columns. *)
Theorem build_pk_dict_round_trip
    (pk_name pre post sep : string) (cols : list string) :
  Without "`" pre -> Without "`" post -> Separator sep -> Forall Name cols ->
  build_pk_dict pk_name (pre +:+ column_list sep cols +:+ post)
  = {[ "constrained_columns" := VList cols; "name" := VStr pk_name ]}.
Proof.
  intros Hpre Hpost Hsep Hcols.
  unfold build_pk_dict, _parse_pk_columns_from_constraint_string.
  rewrite extract_identifiers_findall.
  assert (Hgap : Without "`" (pre +:+ "(")) by now apply Without_app.
  assert (Htail : Without "`" (")" +:+ post)) by now apply Without_app.
  replace (pre +:+ column_list sep cols +:+ post)
    with ((pre +:+ "(") +:+ String.concat sep (map quoted cols)
          +:+ (")" +:+ post))
    by (unfold column_list, grouped; now rewrite !app_assoc).
  now rewrite (findall_identifier_concat sep (")" +:+ post) cols
                 (Separator_Without sep Hsep) Htail Hcols _ Hgap).
Qed.

Lemma build_pk_dict_round_trip_witness :
  build_pk_dict "pk1" "PRIMARY KEY (`id`, `name`, `email_address`)"
  = {[ "constrained_columns" := VList ["id"; "name"; "email_address"];
       "name" := VStr "pk1" ]}.
Proof.
  apply (build_pk_dict_round_trip "pk1" "PRIMARY KEY " "" ", "
           ["id"; "name"; "email_address"]); try reflexivity.
  repeat (apply List.Forall_cons; [split; [discriminate | reflexivity] |]).
  apply List.Forall_nil.
Defined.

Section Clause.
Import Re.

Lemma extract_three_level_clause (pre ws body ws' post : string) :
  NoMatchBefore references_pattern pre
    ("REFERENCES" +:+ ws +:+ body +:+ ws' +:+ "(" +:+ post) ->
  ws <> "" -> Spaces ws -> Spaces ws' ->
  body <> "" -> Str.all_chars name_char body = true ->
  extract_three_level_identifier_from_constraint_string
    (pre +:+ "REFERENCES" +:+ ws +:+ body +:+ ws' +:+ "(" +:+ post)
  = three_level_of body.
Proof.
  intros Hbefore Hws Hsp Hsp' Hbody Hname.
  rewrite extract_three_level_findall, findall_leftmost by assumption.
  destruct (references_pattern_first ws body ws' post Hws Hsp Hbody Hname Hsp')
    as [l Hrun].
  now rewrite (findall_hit _ _ _ _ Hrun) by discriminate.
Qed.

Lemma split_length (sep : ascii) (s : string) :
  length (Str.split sep s) = S (count_char sep s).
Proof.
  induction s as [|c s IH]; simpl; [reflexivity |].
  destruct (Ascii.eqb c sep); simpl; [now rewrite IH |].
  destruct (Str.split sep s) as [|p ps] eqn:Hs; simpl in *; [discriminate |].
  exact IH.
Qed.

Lemma three_level_of_short (m : string) :
  count_char "." m < 2 -> three_level_of m = Raise IndexError.
Proof.
  intros Hc. pose proof (split_length "." m) as Hlen. unfold three_level_of.
  destruct (Str.split "." m) as [|p0 [|p1 [|p2 ps]]]; simpl in *;
    try reflexivity; lia.
Qed.

Lemma three_level_of_long (m : string) :
  2 <= count_char "." m ->
  exists p0 p1 p2 ps,
    Str.split "." m = p0 :: p1 :: p2 :: ps
    /\ three_level_of m
       = Ok (Some {[ "catalog" := VStr (strip_backticks p0);
                     "schema" := VStr (strip_backticks p1);
                     "table" := VStr (strip_backticks p2) ]}).
Proof.
  intros Hc. pose proof (split_length "." m) as Hlen. unfold three_level_of.
  destruct (Str.split "." m) as [|p0 [|p1 [|p2 ps]]]; simpl in *; try lia.
  eauto 6.
Qed.

Lemma three_level_of_Raise (m : string) (e : exn) :
  three_level_of m = Raise e -> e = IndexError.
Proof.
  unfold three_level_of.
  destruct (Str.split "." m) as [|p0 [|p1 [|p2 ps]]]; simpl; congruence.
Qed.

Lemma findall_cons_Occurs (r : regex) (s m : string) (ms : list string) :
  (forall t o os, run r t = o :: os -> matched o <> "") ->
  findall r s = m :: ms -> Occurs r s.
Proof.
  intros Hne Hfind.
  destruct (findall_In r Hne s m) as (pre & o & os & -> & Hrun & _).
  { rewrite Hfind. now left. }
  destruct (run_sound r (matched o +:+ rest o) o) as [_ Hm];
    [rewrite Hrun; now left |].
  exists pre, (matched o), (captured o), (rest o). auto.
Qed.

Lemma extract_three_level_cases (s : string) :
  (~ Occurs references_pattern s
   /\ extract_three_level_identifier_from_constraint_string s = Ok None)
  \/ (Occurs references_pattern s
      /\ (extract_three_level_identifier_from_constraint_string s
          = Raise IndexError
          \/ exists a b c,
               extract_three_level_identifier_from_constraint_string s
               = Ok (Some {[ "catalog" := VStr a; "schema" := VStr b;
                             "table" := VStr c ]}))).
Proof.
  rewrite extract_three_level_findall.
  destruct (findall references_pattern s) as [|m ms] eqn:Hfind.
  - left. split; [now apply findall_nil_iff | reflexivity].
  - right. split.
    + exact (findall_cons_Occurs _ _ _ _ references_pattern_head Hfind).
    + destruct (three_level_of m) as [[q|]|e] eqn:Hm.
      * right. apply three_level_of_Ok in Hm as (? & ? & ? & ? & _ & [= ->]).
        eauto.
      * apply three_level_of_Ok in Hm as (? & ? & ? & ? & _ & [=]).
      * left. now rewrite (three_level_of_Raise _ _ Hm).
Qed.

End Clause.

(** X5. What stands between [REFERENCES] and the parenthesis is read as a
    name of three parts: with fewer than two dots the extractor raises
    [IndexError]; with two or more, the first three parts are returned
    without their backticks and the others are ignored. *)
Theorem extract_three_level_parts
    (pre ws body ws' post : string) :
  let clause := "REFERENCES" +:+ ws +:+ body +:+ ws' +:+ "(" +:+ post in
  NoMatchBefore references_pattern pre clause ->
  ws <> "" -> Spaces ws -> Spaces ws' ->
  body <> "" -> Str.all_chars name_char body = true ->
  (count_char "." body < 2 ->
   extract_three_level_identifier_from_constraint_string (pre +:+ clause)
   = Raise IndexError)
  /\ (2 <= count_char "." body ->
      exists p0 p1 p2 ps,
        Str.split "." body = p0 :: p1 :: p2 :: ps
        /\ extract_three_level_identifier_from_constraint_string
             (pre +:+ clause)
           = Ok (Some {[ "catalog" := VStr (strip_backticks p0);
                         "schema" := VStr (strip_backticks p1);
                         "table" := VStr (strip_backticks p2) ]})).
Proof.
  intros clause Hbefore Hws Hsp Hsp' Hbody Hname. subst clause.
  rewrite (extract_three_level_clause pre ws body ws' post) by assumption.
  split; [apply three_level_of_short | apply three_level_of_long].
Qed.

Lemma extract_three_level_parts_witness :
  extract_three_level_identifier_from_constraint_string
    "FOREIGN KEY (`p`) REFERENCES `sch`.`tbl` (`x`)" = Raise IndexError
  /\ exists p0 p1 p2 ps,
       Str.split "." "`a`.`b`.`c`.`d`" = p0 :: p1 :: p2 :: ps
       /\ extract_three_level_identifier_from_constraint_string
            "FOREIGN KEY (`p`) REFERENCES `a`.`b`.`c`.`d` (`x`)"
          = Ok (Some {[ "catalog" := VStr (strip_backticks p0);
                        "schema" := VStr (strip_backticks p1);
                        "table" := VStr (strip_backticks p2) ]}).
Proof.
  assert (Hpre : forall t,
             NoMatchBefore references_pattern "FOREIGN KEY (`p`) "
               ("REFERENCES" +:+ t)).
  { intros t. apply NoMatchBefore_suffixes. intros v Hin. simpl in Hin.
    repeat (destruct Hin as [<- | Hin]; [reflexivity |]). destruct Hin. }
  split.
  - apply (extract_three_level_parts
             "FOREIGN KEY (`p`) " " " "`sch`.`tbl`" " " "`x`)");
      try reflexivity; try discriminate; [apply Hpre | vm_compute; lia].
  - apply (extract_three_level_parts
             "FOREIGN KEY (`p`) " " " "`a`.`b`.`c`.`d`" " " "`x`)");
      try reflexivity; try discriminate; [apply Hpre | vm_compute; lia].
Defined.

Lemma parse_fk_Raise (s : string) (e : exn) :
  _parse_fk_from_constraint_string s = Raise e ->
  (e = TypeError /\ ~ Re.Occurs references_pattern s)
  \/ (e = IndexError /\ Re.Occurs references_pattern s).
Proof.
  unfold _parse_fk_from_constraint_string.
  destruct (extract_three_level_cases s)
    as [[Hno ->] | [Hocc [-> | (a & b & c & ->)]]]; simpl.
  - intros [= <-]. auto.
  - intros [= <-]. auto.
  - destruct (extract_identifier_groups_from_string s) as [|g1 [|g2 gs]];
      simpl; intros [= <-]; auto.
Qed.

(** X6. When [build_fk_dict] raises, [_parse_fk_from_constraint_string]
    raised the same exception: [TypeError] when [REFERENCES ... (] occurs
    nowhere in the constraint string, [IndexError] when it occurs. No other
    exception is raised. *)
Theorem build_fk_dict_errors
    (fk s : string) (schema_name : option string) (e : exn) :
  build_fk_dict fk s schema_name = Raise e ->
  _parse_fk_from_constraint_string s = Raise e
  /\ ((e = TypeError /\ ~ Re.Occurs references_pattern s)
      \/ (e = IndexError /\ Re.Occurs references_pattern s)).
Proof.
  rewrite build_fk_dict_unfold.
  destruct (_parse_fk_from_constraint_string s) as [base|e'] eqn:Hparse;
    [discriminate |].
  intros [= <-]. split; [reflexivity | now apply parse_fk_Raise].
Qed.

Lemma build_fk_dict_errors_witness :
  (_parse_fk_from_constraint_string "PRIMARY KEY (`id`)" = Raise TypeError
   /\ ((TypeError = TypeError
        /\ ~ Re.Occurs references_pattern "PRIMARY KEY (`id`)")
       \/ (TypeError = IndexError
           /\ Re.Occurs references_pattern "PRIMARY KEY (`id`)")))
  /\ (_parse_fk_from_constraint_string
        "FOREIGN KEY (`p`) REFERENCES `sch`.`tbl` (`x`)" = Raise IndexError
      /\ ((IndexError = TypeError
           /\ ~ Re.Occurs references_pattern
                  "FOREIGN KEY (`p`) REFERENCES `sch`.`tbl` (`x`)")
          \/ (IndexError = IndexError
              /\ Re.Occurs references_pattern
                   "FOREIGN KEY (`p`) REFERENCES `sch`.`tbl` (`x`)"))).
Proof.
  split.
  - apply (build_fk_dict_errors "fk1" "PRIMARY KEY (`id`)" None). reflexivity.
  - apply (build_fk_dict_errors "fk1"
             "FOREIGN KEY (`p`) REFERENCES `sch`.`tbl` (`x`)" (Some "sch")).
    reflexivity.
Defined.

Section Shapes.

Lemma extract_identifiers_Names (s : string) :
  Forall Name (extract_identifiers_from_string s).
Proof.
  apply List.Forall_forall. intros x Hin.
  destruct (Scan_sound _ _ (extract_identifiers_Scan s) x Hin) as (? & ? & _).
  split; assumption.
Qed.

Lemma extract_three_level_stripped (s : string) (q : dict) :
  extract_three_level_identifier_from_constraint_string s = Ok (Some q) ->
  exists a b c,
    q = {[ "catalog" := VStr a; "schema" := VStr b; "table" := VStr c ]}
    /\ Without "`" a /\ Without "`" b /\ Without "`" c.
Proof.
  rewrite extract_three_level_findall.
  destruct (Re.findall references_pattern s) as [|m ms]; [discriminate |].
  intros (p0 & p1 & p2 & ps & _ & [= ->])%three_level_of_Ok.
  exists (strip_backticks p0), (strip_backticks p1), (strip_backticks p2).
  split; [reflexivity |]. repeat split; apply replace_Without.
Qed.

Lemma parse_fk_shape (s : string) (base : dict) :
  _parse_fk_from_constraint_string s = Ok base ->
  exists cols tbl sch refs,
    base = {[ "constrained_columns" := VList cols;
              "referred_table" := VStr tbl;
              "referred_columns" := VList refs;
              "referred_schema" := VStr sch ]}
    /\ Forall Name cols /\ Forall Name refs
    /\ Without "`" tbl /\ Without "`" sch.
Proof.
  intros (q & t & v & c & r & gs & Hq & Ht & Hv & _ & ->)%parse_fk_Ok.
  apply extract_three_level_stripped in Hq as (a & b & c' & -> & _ & Hb & Hc).
  cbn in Ht, Hv. injection Ht as <-. injection Hv as <-.
  exists (extract_identifiers_from_string c), c', b,
         (extract_identifiers_from_string r).
  split; [reflexivity |]. auto using extract_identifiers_Names.
Qed.

Lemma complete_dict (fk tbl sch : string) (cols refs : list string)
    (schema_name : option string) :
  unpack
    (unpack {[ "name" := VStr fk ]}
       {[ "constrained_columns" := VList cols;
          "referred_table" := VStr tbl;
          "referred_columns" := VList refs;
          "referred_schema" := VStr sch ]})
    (if negb (truthy schema_name)
     then {[ "referred_schema" := VNone ]} else ∅)
  = ({[ "name" := VStr fk;
        "constrained_columns" := VList cols;
        "referred_table" := VStr tbl;
        "referred_schema" := if truthy schema_name then VStr sch else VNone;
        "referred_columns" := VList refs ]} : dict).
Proof. destruct (truthy schema_name); reflexivity. Qed.

End Shapes.

(** X7. The dictionary returned by [_parse_fk_from_constraint_string] has
    the four keys [constrained_columns], [referred_table],
    [referred_columns] and [referred_schema], and no [name]; the table and
    the schema are strings, the columns lists of non-empty strings of
    [[A-Za-z0-9_]]. *)
Theorem parse_fk_keys (s : string) (base : dict) :
  _parse_fk_from_constraint_string s = Ok base ->
  dom base = ({[ "constrained_columns"; "referred_table";
                 "referred_columns"; "referred_schema" ]} : gset string)
  /\ base !! "name" = None
  /\ exists cols tbl sch refs,
       base !! "constrained_columns" = Some (VList cols)
       /\ base !! "referred_table" = Some (VStr tbl)
       /\ base !! "referred_schema" = Some (VStr sch)
       /\ base !! "referred_columns" = Some (VList refs)
       /\ Forall Name cols /\ Forall Name refs.
Proof.
  intros (cols & tbl & sch & refs & -> & Hcols & Hrefs & _)%parse_fk_shape.
  split; [| split; [reflexivity |]].
  - rewrite !dom_insert_L, dom_singleton_L. set_solver.
  - exists cols, tbl, sch, refs. repeat split; auto.
Qed.

Lemma parse_fk_keys_witness :
  dom ({[ "constrained_columns" := VList ["p"; "q"];
          "referred_table" := VStr "tbl";
          "referred_columns" := VList ["x"; "y"];
          "referred_schema" := VStr "sch" ]} : dict)
  = ({[ "constrained_columns"; "referred_table";
        "referred_columns"; "referred_schema" ]} : gset string).
Proof.
  apply (parse_fk_keys
           "FOREIGN KEY (`p`,`q`) REFERENCES `cat`.`sch`.`tbl` (`x`,`y`)").
  vm_compute. reflexivity.
Defined.

(** X8. A dictionary returned by [build_fk_dict] has exactly the five keys
    [name], [constrained_columns], [referred_table], [referred_schema] and
    [referred_columns]: the name is the one given, the columns are lists of
    non-empty strings of [[A-Za-z0-9_]], the table is a string without
    backtick, and the schema is such a string or, without schema name,
    [None]. *)
Theorem build_fk_dict_shape
    (fk s : string) (schema_name : option string) (d : dict) :
  build_fk_dict fk s schema_name = Ok d ->
  exists cols tbl sch refs,
    d = {[ "name" := VStr fk;
           "constrained_columns" := VList cols;
           "referred_table" := VStr tbl;
           "referred_schema" :=
             if truthy schema_name then VStr sch else VNone;
           "referred_columns" := VList refs ]}
    /\ Forall Name cols /\ Forall Name refs
    /\ Without "`" tbl /\ Without "`" sch.
Proof.
  rewrite build_fk_dict_unfold.
  destruct (_parse_fk_from_constraint_string s) as [base|e] eqn:Hbase;
    [| discriminate].
  apply parse_fk_shape in Hbase
    as (cols & tbl & sch & refs & -> & Hcols & Hrefs & Htbl & Hsch).
  intros [= <-]. exists cols, tbl, sch, refs.
  split; [apply complete_dict | auto].
Qed.

Lemma build_fk_dict_shape_witness :
  exists cols tbl sch refs,
    ({[ "name" := VStr "fk1";
        "constrained_columns" := VList ["p"];
        "referred_table" := VStr "t-1";
        "referred_schema" := VNone;
        "referred_columns" := VList ["x"] ]} : dict)
    = {[ "name" := VStr "fk1";
         "constrained_columns" := VList cols;
         "referred_table" := VStr tbl;
         "referred_schema" := if truthy (Some "") then VStr sch else VNone;
         "referred_columns" := VList refs ]}
    /\ Forall Name cols /\ Forall Name refs
    /\ Without "`" tbl /\ Without "`" sch.
Proof.
  apply (build_fk_dict_shape "fk1"
           "FOREIGN KEY (`p`) REFERENCES `c`.`s 1`.`t-1` (`x`)" (Some "")).
  vm_compute. reflexivity.
Defined.

Section WellFormed.
Import Re.

Lemma references_pattern_keyword (u : string) :
  MatchesAt references_pattern u ->
  exists sp t, u = "REFERENCES" +:+ String sp t /\ space sp = true.
Proof.
  intros (w & g & t & -> & Hm). unfold references_pattern in Hm.
  apply Matches_cat_inv in Hm as (l & w1 & ? & ? & -> & _ & Hl & Hm).
  apply Matches_lit_inv in Hl as [-> _].
  apply Matches_cat_inv in Hm as (ws & w2 & ? & ? & -> & _ & Hws & _).
  apply Matches_plus_inv in Hws as (Hne & Hsp & _).
  destruct ws as [|sp ws]; [congruence |].
  simpl in Hsp. apply andb_prop in Hsp as [Hsp _].
  exists sp, ((ws +:+ w2) +:+ t). split; [| exact Hsp].
  now rewrite !app_assoc.
Qed.

Lemma references_pattern_start (c : ascii) (u : string) :
  MatchesAt references_pattern (String c u) ->
  negb (Ascii.eqb c "R") = false.
Proof.
  intros (sp & t & H & _)%references_pattern_keyword.
  injection H as -> _. reflexivity.
Qed.

Lemma class_boundary (q : ascii -> bool) (y l r t : string) (b d : ascii) :
  Str.all_chars q y = true -> Str.all_chars q l = true ->
  q b = false -> q d = false ->
  y +:+ String b r = l +:+ String d t -> y = l /\ b = d /\ r = t.
Proof.
  intros Hy Hl Hb Hd. revert l Hl.
  induction y as [|c y IH]; intros [|c' l] Hl; simpl in *.
  - intros [= -> ->]. auto.
  - apply andb_prop in Hl as [Hc' _]. intros [= -> _]. congruence.
  - apply andb_prop in Hy as [Hc _]. intros [= -> _]. congruence.
  - apply andb_prop in Hy as [_ Hy]. apply andb_prop in Hl as [_ Hl].
    intros [= -> H]. destruct (IH Hy l Hl H) as (-> & -> & ->). auto.
Qed.

Lemma space_not_word (c : ascii) : space c = true -> word_char c = false.
Proof.
  destruct c as [[] [] [] [] [] [] [] []]; vm_compute; congruence.
Qed.

Lemma references_not_in_word (x t : string) :
  Identifier x -> NoMatchBefore references_pattern x (String "`" t).
Proof.
  intros Hx u v -> Hv (sp & t' & H & Hsp)%references_pattern_keyword.
  unfold Identifier in Hx. rewrite all_chars_app in Hx.
  apply andb_prop in Hx as [_ Hv'].
  destruct (class_boundary word_char v "REFERENCES" t t' "`" sp)
    as (_ & <- & _); auto using space_not_word.
  discriminate Hsp.
Qed.

Lemma references_not_in_quoted (x t : string) :
  Identifier x -> NoMatchBefore references_pattern (quoted x) t.
Proof.
  intros Hx. unfold quoted.
  change ("`" +:+ x +:+ "`") with (String "`" (x +:+ "`")).
  apply NoMatchBefore_cons.
  - intros H%references_pattern_start. discriminate.
  - apply NoMatchBefore_app; [now apply references_not_in_word |].
    apply (NoMatchBefore_chars _ _ _ _ references_pattern_start). reflexivity.
Qed.

Lemma sep_char_not_R (c : ascii) :
  sep_char c = true -> negb (Ascii.eqb c "R") = true.
Proof.
  intros Hc. destruct (Ascii.eqb_spec c "R") as [-> |]; [discriminate | easy].
Qed.

Lemma references_not_in_columns (sep t : string) (xs : list string) :
  Separator sep -> Forall Name xs ->
  NoMatchBefore references_pattern (String.concat sep (map quoted xs)) t.
Proof.
  intros Hsep Hxs. revert t.
  induction Hxs as [| x xs [_ Hx] Hxs IH]; intros t.
  - apply NoMatchBefore_nil.
  - destruct xs as [|y ys].
    + now apply references_not_in_quoted.
    + change (map quoted (x :: y :: ys))
        with (quoted x :: quoted y :: map quoted ys).
      rewrite concat_cons2.
      apply NoMatchBefore_app; [now apply references_not_in_quoted |].
      apply NoMatchBefore_app; [| apply IH].
      apply (NoMatchBefore_chars _ _ _ _ references_pattern_start).
      exact (all_chars_impl _ _ _ sep_char_not_R Hsep).
Qed.

Lemma fk_constraint_clause (sep : string) (cols : list string)
    (a b c : string) (refs : list string) :
  fk_constraint sep cols a b c refs
  = ("FOREIGN KEY (" +:+ String.concat sep (map quoted cols) +:+ ") ")
    +:+ "REFERENCES" +:+ " " +:+ qualified a b c +:+ " " +:+ "("
    +:+ (String.concat sep (map quoted refs) +:+ ")").
Proof.
  unfold fk_constraint, column_list, grouped. now rewrite !app_assoc.
Qed.

Lemma fk_constraint_three_level (sep : string) (cols : list string)
    (a b c : string) (refs : list string) :
  Separator sep -> Forall Name cols ->
  Identifier a -> Identifier b -> Identifier c ->
  extract_three_level_identifier_from_constraint_string
    (fk_constraint sep cols a b c refs)
  = Ok (Some {[ "catalog" := VStr a; "schema" := VStr b; "table" := VStr c ]}).
Proof.
  intros Hsep Hcols Ha Hb Hc. rewrite fk_constraint_clause.
  rewrite extract_three_level_clause;
    [now apply three_level_of_qualified | | discriminate | reflexivity
    | reflexivity | discriminate | now apply qualified_name_chars].
  apply NoMatchBefore_app.
  - apply NoMatchBefore_suffixes. intros v Hin. simpl in Hin.
    repeat (destruct Hin as [<- | Hin]; [reflexivity |]). destruct Hin.
  - apply NoMatchBefore_app; [now apply references_not_in_columns |].
    apply (NoMatchBefore_chars _ _ _ _ references_pattern_start). reflexivity.
Qed.

Lemma qualified_Without (d : ascii) (a b c : string) :
  word_char d = false -> Ascii.eqb "`" d = false -> Ascii.eqb "." d = false ->
  Identifier a -> Identifier b -> Identifier c -> Without d (qualified a b c).
Proof.
  intros Hd Hq Hdot Ha Hb Hc.
  assert (Hq' : Without d "`").
  { unfold Without. cbn [Str.all_chars]. now rewrite Hq. }
  assert (Hdot' : Without d ".").
  { unfold Without. cbn [Str.all_chars]. now rewrite Hdot. }
  assert (H : forall x, Identifier x -> Without d (quoted x)).
  { intros x Hx. unfold quoted. rewrite !Without_app.
    auto using Identifier_Without. }
  unfold qualified. rewrite !Without_app. auto 10.
Qed.

Lemma fk_constraint_groups (sep : string) (cols : list string)
    (a b c : string) (refs : list string) :
  Separator sep -> Forall Name cols -> Forall Name refs ->
  Identifier a -> Identifier b -> Identifier c ->
  extract_identifier_groups_from_string (fk_constraint sep cols a b c refs)
  = [column_list sep cols; column_list sep refs].
Proof.
  intros Hsep Hcols Hrefs Ha Hb Hc.
  rewrite extract_identifier_groups_findall. unfold fk_constraint, column_list.
  rewrite findall_group_step;
    [| reflexivity | now apply concat_group_chars].
  replace (" REFERENCES " +:+ qualified a b c +:+ " "
           +:+ grouped (String.concat sep (map quoted refs)))
    with ((" REFERENCES " +:+ qualified a b c +:+ " ")
          +:+ grouped (String.concat sep (map quoted refs)) +:+ "")
    by (now rewrite app_nil_r, !app_assoc).
  rewrite findall_group_step;
    [reflexivity | | now apply concat_group_chars].
  rewrite !Without_app. repeat split; try reflexivity.
  now apply qualified_Without.
Qed.

End WellFormed.

(** X9. Every foreign-key constraint written as
    [FOREIGN KEY (cols) REFERENCES `a`.`b`.`c` (refs)], with lists of
    backtick-quoted names separated by commas and white space, is read
    back: the columns are [cols] and [refs], the table is [c], and the
    schema is [b], or [None] without schema name. *)
Theorem build_fk_dict_well_formed
    (fk_name sep : string) (cols : list string) (a b c : string)
    (refs : list string) (schema_name : option string) :
  Separator sep -> Forall Name cols -> Forall Name refs ->
  Identifier a -> Identifier b -> Identifier c ->
  build_fk_dict fk_name (fk_constraint sep cols a b c refs) schema_name
  = Ok {[ "name" := VStr fk_name;
          "constrained_columns" := VList cols;
          "referred_table" := VStr c;
          "referred_schema" := if truthy schema_name then VStr b else VNone;
          "referred_columns" := VList refs ]}.
Proof.
  intros Hsep Hcols Hrefs Ha Hb Hc.
  rewrite build_fk_dict_unfold. unfold _parse_fk_from_constraint_string.
  rewrite fk_constraint_three_level, fk_constraint_groups by assumption.
  cbn [mbind result_bind dict_item list_item lookup list_lookup].
  rewrite !extract_identifiers_column_list by assumption.
  f_equal. apply complete_dict.
Qed.

Lemma build_fk_dict_well_formed_witness :
  build_fk_dict "fk1"
    "FOREIGN KEY (`pname`, `pid`, `pattr`) REFERENCES `main`.`pysql_dialect_compliance`.`tb1` (`name`, `id`, `attr`)"
    (Some "pysql_dialect_compliance")
  = Ok {[ "name" := VStr "fk1";
          "constrained_columns" := VList ["pname"; "pid"; "pattr"];
          "referred_table" := VStr "tb1";
          "referred_schema" := VStr "pysql_dialect_compliance";
          "referred_columns" := VList ["name"; "id"; "attr"] ]}.
Proof.
  apply (build_fk_dict_well_formed "fk1" ", " ["pname"; "pid"; "pattr"]
           "main" "pysql_dialect_compliance" "tb1" ["name"; "id"; "attr"]
           (Some "pysql_dialect_compliance"));
    try reflexivity;
    repeat (apply List.Forall_cons; [split; [discriminate | reflexivity] |]);
    apply List.Forall_nil.
Defined.

Section RowFacts.

Lemma foldl_append_map {A B} (f : A -> B) (l : list A) (acc : list B) :
  foldl (fun out a => out ++ [f a]) acc l = acc ++ map f l.
Proof.
  revert acc. induction l as [|a l IH]; intros acc; simpl.
  - now rewrite List.app_nil_r.
  - now rewrite IH, <- List.app_assoc.
Qed.

Lemma describe_map {C} (cn dt : C -> string) (result : list C) :
  _describe_table_extended_result_to_dict_list C cn dt result
  = map (fun r => Row (cn r) (dt r)) result.
Proof.
  unfold _describe_table_extended_result_to_dict_list.
  now rewrite (foldl_append_map (fun r => Row (cn r) (dt r))).
Qed.

Lemma filter_map_rows {C} (f : C -> row) (keep : row -> bool) (l : list C) :
  List.filter keep (map f l) = map f (List.filter (fun c => keep (f c)) l).
Proof.
  induction l as [|c l IH]; simpl; [reflexivity |].
  destruct (keep (f c)); simpl; now rewrite IH.
Qed.

Lemma contains_empty (s : string) : ("" in_str s) = true.
Proof. destruct s; reflexivity. Qed.

Lemma Substring_wrap (sub s pre post : string) :
  Str.Substring sub s -> Str.Substring sub (pre +:+ s +:+ post).
Proof.
  intros (a & b & ->). exists (pre +:+ a), (b +:+ post).
  now rewrite !app_assoc.
Qed.

End RowFacts.

(** X10. [_describe_table_extended_result_to_dict_list] gives one row for
    each row of the cursor, in the same order, with its [col_name] and
    [data_type]; the foreign-key rows selected from its result are those of
    the rows of the cursor whose [data_type] holds "FOREIGN KEY". *)
Theorem describe_table_extended_rows
    (cursor_row : Type) (row_col_name row_data_type : cursor_row -> string)
    (result : list cursor_row) :
  let rows :=
    _describe_table_extended_result_to_dict_list
      cursor_row row_col_name row_data_type result in
  length rows = length result
  /\ (forall i,
        rows !! i
        = (fun r => Row (row_col_name r) (row_data_type r)) <$> result !! i)
  /\ get_fk_strings_from_dte_output rows
     = map (fun r => Row (row_col_name r) (row_data_type r))
           (List.filter (fun r => "FOREIGN KEY" in_str row_data_type r) result).
Proof.
  intros rows. subst rows. rewrite describe_map. split; [| split].
  - apply length_map.
  - intros i. apply list_lookup_fmap.
  - unfold get_fk_strings_from_dte_output.
    rewrite match_dte_rows_by_value_filter. apply filter_map_rows.
Qed.

(** X11. The rows selected from two lists put end to end are those
    selected from the first followed by those selected from the second, and
    selecting again from the selected rows changes nothing. *)
Theorem match_dte_rows_by_value_app (rows1 rows2 : list row) (m : string) :
  match_dte_rows_by_value (rows1 ++ rows2) m
  = match_dte_rows_by_value rows1 m ++ match_dte_rows_by_value rows2 m
  /\ match_dte_rows_by_value (match_dte_rows_by_value rows1 m) m
     = match_dte_rows_by_value rows1 m.
Proof.
  rewrite !match_dte_rows_by_value_filter. split.
  - apply List.filter_app.
  - induction rows1 as [|r rows IH]; simpl; [reflexivity |].
    destruct (m in_str data_type r) eqn:Hr; simpl; [| exact IH].
    now rewrite Hr, IH.
Qed.

(** X12. With the empty string as match, every row is selected. *)
Theorem match_dte_rows_by_value_empty (rows : list row) :
  match_dte_rows_by_value rows "" = rows.
Proof.
  rewrite match_dte_rows_by_value_filter.
  induction rows as [|r rows IH]; simpl; [reflexivity |].
  now rewrite contains_empty, IH.
Qed.

(** X13. A message recognised by [_match_table_not_found_string] is still
    recognised when text is put before and after it. *)
Theorem match_table_not_found_string_wrap (message pre post : string) :
  _match_table_not_found_string message = true ->
  _match_table_not_found_string (pre +:+ message +:+ post) = true.
Proof.
  unfold _match_table_not_found_string, any. simpl.
  rewrite !orb_false_r, !orb_true_iff, !contains_iff.
  intros [H | H]; [left | right]; now apply Substring_wrap.
Qed.

Lemma match_table_not_found_string_wrap_witness :
  _match_table_not_found_string
    ("(pymysql.err) " +:+ "[TABLE_OR_VIEW_NOT_FOUND] The table `t` cannot be found."
     +:+ " (Background on this error)") = true.
Proof.
  apply match_table_not_found_string_wrap. reflexivity.
Defined.

(** X14. [build_pk_dict] returns, for every constraint string, a dictionary
    with the name given and a list of columns that are non-empty strings of
    [[A-Za-z0-9_]]; the list is empty exactly when the string holds no
    backtick-quoted name. *)
Theorem build_pk_dict_shape (pk_name s : string) :
  exists cols,
    build_pk_dict pk_name s
    = {[ "constrained_columns" := VList cols; "name" := VStr pk_name ]}
    /\ Forall Name cols
    /\ (cols = [] <-> forall x, ~ Token x s).
Proof.
  exists (extract_identifiers_from_string s). split; [reflexivity |].
  split; [apply extract_identifiers_Names |].
  apply Scan_nil_iff, extract_identifiers_Scan.
Qed.
